(** * exif_batch_set: the safe batch-mutation engine

    A shallow embedding of [exif_batch_set.cpp] and the properties of its
    validator, type filter, backup-then-mutate protocol, dry-run mode and
    outcome accounting.

    Layout: the pure helpers ([IsValidExifDateTime], [ToLower],
    [IsJpegPath]), then the world the program runs in (file system, event
    trace, fault oracles, the Exiv2 interface), then the effectful code
    ([CopyFileBinary], [UpdateExifInPlace], [process_entry], [main]) in a
    state-and-exception monad, then the theorems. *)

From Stdlib Require Import ZArith Ascii String List Lia.
From Stdlib.Strings Require Import Byte.
From stdpp Require Import gmap strings list fin_maps pretty.

Open Scope string_scope.

(* ===================================================================== *)
(** ** Characters and strings *)
(* ===================================================================== *)

(** [s[i]] on a [std::string].  The source only indexes after checking
    [s.size() == 19]; outside the string the model reads the terminating
    NUL. *)
Definition char_at (s : string) (i : nat) : ascii :=
  match String.get i s with
  | Some c => c
  | None => Ascii.zero
  end.

(** The lambda [is_digit] of [IsValidExifDateTime]:
    [c >= '0' && c <= '9'].  A [char] outside 7-bit ASCII is below ['0'] when
    [char] is signed and above ['9'] when it is unsigned, so the unsigned
    comparison of the codes gives the same answer on both. *)
Definition is_digit (c : ascii) : bool :=
  (Ascii.leb "0" c) && (Ascii.leb c "9").

(** The braced list iterated by the [for] loop of [IsValidExifDateTime]. *)
Definition digit_positions : list nat :=
  [0; 1; 2; 3; 5; 6; 8; 9; 11; 12; 14; 15; 17; 18]%nat.

Definition IsValidExifDateTime (s : string) : bool :=
  if negb (String.length s =? 19)%nat then false
  else if negb (forallb (fun i => is_digit (char_at s i)) digit_positions)
  then false
  else (char_at s 4 =? ":")%char && (char_at s 7 =? ":")%char
       && (char_at s 10 =? " ")%char
       && (char_at s 13 =? ":")%char && (char_at s 16 =? ":")%char.

(** [std::tolower] in the "C" locale (the program never calls
    [setlocale]): the 26 upper-case letters move down, everything else is
    unchanged. *)
Definition tolower (c : ascii) : ascii :=
  if (Ascii.leb "A" c) && (Ascii.leb c "Z")
  then ascii_of_nat (nat_of_ascii c + 32)
  else c.

Fixpoint ToLower (s : string) : string :=
  match s with
  | EmptyString => EmptyString
  | String c r => String (tolower c) (ToLower r)
  end.

(* ===================================================================== *)
(** ** [std::filesystem::path] decomposition *)
(* ===================================================================== *)

(** [fs::path::extension] belongs to the C++ standard library, not to the
    program; it is modelled after [fs.path.decompose]: the filename is the
    last element of the path, and its extension starts at the rightmost
    period, unless the filename is [.] or [..], has no period, or has its
    only period at index 0.  Two path formats are covered: the POSIX one
    (separator [/]) and the Windows one (separators [/] and [\], a drive
    letter [X:] as root name; UNC root names are not modelled). *)
Inductive path_format : Type := posix | windows.

Definition backslash : ascii := ascii_of_nat 92.

Definition is_separator (fmt : path_format) (c : ascii) : bool :=
  (c =? "/")%char
  || match fmt with
     | windows => (c =? backslash)%char
     | posix => false
     end.

Definition is_alpha (c : ascii) : bool :=
  ((Ascii.leb "A" c) && (Ascii.leb c "Z"))
  || ((Ascii.leb "a" c) && (Ascii.leb c "z")).

Definition strip_root_name (fmt : path_format) (s : string) : string :=
  match fmt, s with
  | windows, String d (String c r) =>
      if is_alpha d && (c =? ":")%char then r else s
  | _, _ => s
  end.

Fixpoint has_separator (fmt : path_format) (s : string) : bool :=
  match s with
  | EmptyString => false
  | String c r => is_separator fmt c || has_separator fmt r
  end.

(** What follows the last directory separator (the whole string when
    there is none). *)
Fixpoint last_element (fmt : path_format) (s : string) : string :=
  match s with
  | EmptyString => EmptyString
  | String c r =>
      if has_separator fmt r then last_element fmt r
      else if is_separator fmt c then r
      else s
  end.

Definition filename (fmt : path_format) (p : string) : string :=
  last_element fmt (strip_root_name fmt p).

(** [s.rfind(c)]: the index of the rightmost [c], [None] for [npos]. *)
Fixpoint rfind (c : ascii) (s : string) : option nat :=
  match s with
  | EmptyString => None
  | String a r =>
      match rfind c r with
      | Some i => Some (S i)
      | None => if (a =? c)%char then Some 0%nat else None
      end
  end.

(** [s.substr(pos)]. *)
Fixpoint substr_from (pos : nat) (s : string) : string :=
  match pos, s with
  | O, _ => s
  | S n, String _ r => substr_from n r
  | S _, EmptyString => EmptyString
  end.

Definition extension (fmt : path_format) (p : string) : string :=
  let f := filename fmt p in
  if (f =? ".") || (f =? "..") then ""
  else match rfind "." f with
       | Some (S n) => substr_from (S n) f
       | _ => ""
       end.

Definition IsJpegPath (fmt : path_format) (p : string) : bool :=
  let ext := ToLower (extension fmt p) in
  (ext =? ".jpg") || (ext =? ".jpeg").

(** [operator<<] of [fs::path] writes the path through [std::quoted]:
    between double quotes, with every double quote and backslash escaped by
    a backslash. *)
Definition dquote : ascii := ascii_of_nat 34.

Fixpoint escape (s : string) : string :=
  match s with
  | EmptyString => EmptyString
  | String c r =>
      if (c =? dquote)%char || (c =? backslash)%char
      then String backslash (String c (escape r))
      else String c (escape r)
  end.

Definition quoted (p : string) : string :=
  String dquote (escape p +:+ String dquote "").

(** ["\n"]. *)
Definition nl : string := String (ascii_of_nat 10) "".

(* ===================================================================== *)
(** ** The world: file system, trace, exceptions *)
(* ===================================================================== *)

(** A file-system entry: a regular file with its bytes, or a directory.
    Paths are the keys as the program spells them; two spellings are two
    keys, and every key names an object of its own: the file systems
    described here have no symbolic links and no hard links.  On a file
    system with links [fs::exists] and the streams follow them, and what is
    said below about the paths that a call leaves alone holds for the
    objects that the two paths of the call name. *)
Inductive node : Type :=
| File (content : list byte)
| Directory.

(** What the per-file protocol does to the outside, in program order:
    console lines, [fs::exists], the two stream constructors of
    [CopyFileBinary], and the three calls into Exiv2 that touch the image
    file. *)
Inductive event : Type :=
| Stdout (text : string)
| Stderr (text : string)
| FsExists (p : string)
| OpenIn (p : string)
| OpenOut (p : string)
| ImageOpen (p : string)
| ReadMetadata (p : string)
| WriteMetadata (p : string).

Record world : Type := World {
  fs : gmap string node;
  trace : list event
}.

(** The exceptions the two [catch] clauses of [UpdateExifInPlace] name.
    Exiv2 reports every failure as [Exiv2::Error]; [fs::filesystem_error]
    and the exceptions of the C++ runtime derive from [std::exception]. *)
Inductive exn : Type :=
| Exiv2_Error (msg : string)
| std_exception (msg : string).

Definition what (e : exn) : string :=
  match e with
  | Exiv2_Error msg => msg
  | std_exception msg => msg
  end.

Inductive result (A : Type) : Type :=
| Ret (a : A)
| Throw (e : exn).
Arguments Ret {A} a.
Arguments Throw {A} e.

(** State and exceptions: a computation runs in a world and either returns
    or throws, and what it did to the world before throwing stays done. *)
Definition M (A : Type) : Type := world -> result A * world.

#[global] Instance M_ret : MRet M := fun A a w => (Ret a, w).

#[global] Instance M_bind : MBind M := fun A B k m w =>
  match m w with
  | (Ret a, w') => k a w'
  | (Throw e, w') => (Throw e, w')
  end.

Definition throw {A : Type} (e : exn) : M A := fun w => (Throw e, w).

Definition try_catch {A : Type} (body : M A) (handler : exn -> M A) : M A :=
  fun w =>
    match body w with
    | (Ret a, w') => (Ret a, w')
    | (Throw e, w') => handler e w'
    end.

(** The bytes a read stream finds at [p]: those of the regular file there,
    none otherwise. *)
Definition file_bytes (m : gmap string node) (p : string) : list byte :=
  match m !! p with
  | Some (File bytes) => bytes
  | _ => []
  end.

Definition get_fs : M (gmap string node) := fun w => (Ret (fs w), w).

Definition put_fs (m : gmap string node) : M unit :=
  fun w => (Ret tt, World m (trace w)).

Definition log (e : event) : M unit :=
  fun w => (Ret tt, World (fs w) (trace w ++ [e])).

Definition lift_result {A : Type} (r : result A) : M A := fun w => (r, w).

(** An entry of a directory iterator whose [is_regular_file()] has
    answered: its path and the answer. *)
Record directory_entry : Type := Entry {
  path : string;
  is_regular_file : bool
}.

(** An entry as a directory iterator yields it: its path, and what
    [is_regular_file()] does when the lambda of [main] calls it, an answer
    or a [fs::filesystem_error]. *)
Record dir_item : Type := Item {
  item_path : string;
  item_regular : result bool
}.

(** One position of a directory stream; a stream has finitely many.  What
    the iterator does when the loop reaches the position is decided then,
    from the file system of that moment: it yields an entry, it passes on
    without one (a file that is gone, or a file made during the run that
    the iterator does not see), or the increment throws
    [fs::filesystem_error]. *)
Definition dir_slot : Type := gmap string node -> result (option dir_item).

(** The host the program runs on: the path format, and what the operating
    system decides.
    - [status_fault p]: [fs::exists(p)] cannot determine the status of [p]
      and throws [fs::filesystem_error] with this message;
    - [open_in_denied p], [open_out_denied p]: the stream on [p] does not
      open although the file system would allow it by shape.  These three
      are decided by the path alone, as permissions are, which the program
      never changes;
    - [ifstream_opens_directory]: whether [std::ifstream] opens on a
      directory (it does on Linux, where only the reading fails then);
    - [stream_accepts m p n]: of [n] characters offered to the output
      stream on [p], in the file system [m], how many pass from the input
      sequence into the output sequence before the input ends early or an
      insertion fails.  The output sequence is the buffer of the stream:
      a character that was accepted need not be in the file yet;
    - [disk_keeps m p n]: of [n] accepted characters, how many are in the
      file once the stream is flushed and closed.  Both may depend on the
      whole file system: free space is shared by all files;
    - the two directory iterators: the construction throws
      [fs::filesystem_error] or gives the positions the stream will go
      through.  C++ leaves open whether an iterator sees the files created
      while it runs (the backups); a position decides it from the file
      system it finds. *)
Record Host : Type := {
  format : path_format;
  status_fault : string -> option string;
  open_in_denied : string -> bool;
  open_out_denied : string -> bool;
  ifstream_opens_directory : bool;
  stream_accepts : gmap string node -> string -> nat -> nat;
  disk_keeps : gmap string node -> string -> nat -> nat;
  directory_iterator : gmap string node -> string -> result (list dir_slot);
  recursive_directory_iterator :
    gmap string node -> string -> result (list dir_slot)
}.

(** [Exiv2::ExifData]: the decoded metadata, a mapping from key to
    value. *)
Abbreviation ExifData := (gmap string string).

(** The external metadata codec, as far as the program uses it.  Each
    operation sees the image path and what is on disk there.
    - [ImageFactory_open]: an image handle ([true]), a null handle
      ([false]), or an exception;
    - [readMetadata]: the decoded Exif data, or an exception;
    - [writeMetadata]: the bytes it leaves in the file ([None]: file not
      touched) and the exception it ends with, if any. *)
Class Exiv2 : Type := {
  ImageFactory_open : string -> option node -> result bool;
  readMetadata : string -> option node -> result ExifData;
  writeMetadata :
    string -> option node -> ExifData -> option (list byte) * option exn
}.

(* ===================================================================== *)
(** ** The program *)
(* ===================================================================== *)

(** [std::size_t] on the 64-bit targets: [++] wraps at [2^64]. *)
Definition SIZE_MAX : Z := 2 ^ 64 - 1.

Definition size_t_incr (x : Z) : Z := (x + 1) mod (SIZE_MAX + 1).

(** The three counters that the lambda [process_entry] captures by
    reference in [main]. *)
Record counters : Type := Counters {
  total : Z;
  ok : Z;
  skipped : Z
}.

(** The flags of [main], with their initial values. *)
Record options : Type := Options {
  recursive : bool;
  dry_run : bool;
  make_backup : bool
}.

Definition default_options : options :=
  {| recursive := false; dry_run := false; make_backup := true |}.

(** The option loop of [main], [for (int i = 3; i < argc; ++i)]: the flags
    after all options were read, or the first unknown option. *)
Fixpoint parse_options (opts : list string) (o : options) : string + options :=
  match opts with
  | [] => inr o
  | opt :: rest =>
      if (opt =? "--recursive") then
        parse_options rest (Options true (dry_run o) (make_backup o))
      else if (opt =? "--dry-run") then
        parse_options rest (Options (recursive o) true (make_backup o))
      else if (opt =? "--no-backup") then
        parse_options rest (Options (recursive o) (dry_run o) false)
      else inl opt
  end.

Definition usage_text : string :=
  "Usage:" +:+ nl
  +:+ "  exif_batch_set.exe <folder> " +:+ String dquote "YYYY:MM:DD HH:MM:SS"
  +:+ String dquote " [options]" +:+ nl
  +:+ nl +:+ "Options:" +:+ nl
  +:+ "  --recursive     Process subfolders" +:+ nl
  +:+ "  --dry-run       Do not modify files, just print what would be changed" +:+ nl
  +:+ "  --no-backup     Do not create .bak backup files" +:+ nl
  +:+ nl +:+ "Examples:" +:+ nl
  +:+ "  exif_batch_set.exe C:\\photos " +:+ String dquote "2026:02:25 18:30:00"
  +:+ String dquote nl
  +:+ "  exif_batch_set.exe C:\\photos " +:+ String dquote "2026:02:25 18:30:00"
  +:+ String dquote " --recursive" +:+ nl
  +:+ "  exif_batch_set.exe C:\\photos " +:+ String dquote "2026:02:25 18:30:00"
  +:+ String dquote " --dry-run" +:+ nl.

Definition PrintUsage : M unit := log (Stderr usage_text).

(** [backup_path] of [UpdateExifInPlace]: [file] with [+= ".bak"]. *)
Definition backup_path_of (file : string) : string := file +:+ ".bak".

Section Program.

Context (H : Host) {X : Exiv2}.

(** *** File-system and stream operations *)

(** [fs::exists(p)], the throwing overload. *)
Definition fs_exists (p : string) : M bool :=
  log (FsExists p);;
  match status_fault H p with
  | Some msg => throw (std_exception msg)
  | None => m ← get_fs; mret (bool_decide (is_Some (m !! p)))
  end.

(** [fs::exists(p, ec)] and [fs::is_directory(p, ec)], the overloads that
    answer [false] instead of throwing.  [main] calls them once on the
    root, before the loop; they are pure queries and leave no event. *)
Definition fs_exists_ec (m : gmap string node) (p : string) : bool :=
  match status_fault H p with
  | Some _ => false
  | None => bool_decide (is_Some (m !! p))
  end.

Definition fs_is_directory_ec (m : gmap string node) (p : string) : bool :=
  match status_fault H p with
  | Some _ => false
  | None => match m !! p with
            | Some Directory => true
            | _ => false
            end
  end.

(** Whether a read stream opens on [src]: on a regular file that the host
    lets the program read, and on a directory where the host opens
    those. *)
Definition readable (m : gmap string node) (src : string) : bool :=
  match m !! src with
  | Some (File _) => negb (open_in_denied H src)
  | Some Directory =>
      ifstream_opens_directory H && negb (open_in_denied H src)
  | None => false
  end.

(** [std::ifstream in(src, std::ios::binary)] followed by [!in]. *)
Definition ifstream_open (src : string) : M bool :=
  log (OpenIn src);;
  m ← get_fs;
  mret (readable m src).

(** [std::ofstream out(dst, std::ios::binary | std::ios::trunc)] followed by
    [!out]: on success the file exists and is empty, whatever it held. *)
Definition ofstream_open_trunc (dst : string) : M bool :=
  log (OpenOut dst);;
  m ← get_fs;
  if open_out_denied H dst then mret false
  else match m !! dst with
       | Some Directory => mret false
       | _ => put_fs (<[dst := File []]> m);; mret true
       end.

(** How many of the bytes [data] the inserter puts into the output
    sequence of the stream on [dst], and how many of them are in the file
    once the stream is closed. *)
Definition inserted_length (m : gmap string node) (dst : string)
    (data : list byte) : nat :=
  Nat.min (stream_accepts H m dst (length data)) (length data).

Definition kept_length (m : gmap string node) (dst : string)
    (data : list byte) : nat :=
  Nat.min (disk_keeps H m dst (inserted_length m dst data))
          (inserted_length m dst data).

(** [out << in.rdbuf()] followed by [out.good()], and the two streams
    going out of scope when [CopyFileBinary] returns.  The inserter moves
    characters from [src] into the output sequence until the input ends or
    an insertion fails, and it sets [failbit] when it has inserted no
    character; it sets no other bit.  So [good()] says that at least one
    character was accepted, not that it was written: the test comes before
    the stream is flushed and closed, and the destructor reports
    nothing.  What is in the file afterwards is a prefix of the bytes of
    [src]. *)
Definition stream_copy (src dst : string) : M bool :=
  m ← get_fs;
  let data := file_bytes m src in
  put_fs (<[dst := File (take (kept_length m dst data) data)]> m);;
  mret (negb (inserted_length m dst data =? 0)%nat).

(** [CopyFileBinary(src, dst, &err)]: the returned flag and the string that
    [err] points to afterwards ([err] is its value at the call). *)
Definition CopyFileBinary (src dst : string) (err : string)
  : M (bool * string) :=
  opened ← ifstream_open src;
  if negb opened then mret (false, "failed to open source for backup")
  else
    created ← ofstream_open_trunc dst;
    if negb created
    then mret (false, "failed to open destination for backup")
    else
      good ← stream_copy src dst;
      if negb good then mret (false, "failed while writing backup")
      else mret (true, err).

(** *** The calls into Exiv2 *)

Definition Image_open (file : string) : M bool :=
  log (ImageOpen file);;
  m ← get_fs;
  lift_result (ImageFactory_open file (m !! file)).

Definition Image_readMetadata (file : string) : M ExifData :=
  log (ReadMetadata file);;
  m ← get_fs;
  lift_result (readMetadata file (m !! file)).

Definition Image_writeMetadata (file : string) (exif : ExifData) : M unit :=
  log (WriteMetadata file);;
  m ← get_fs;
  let '(left_on_disk, raised) := writeMetadata file (m !! file) exif in
  match left_on_disk with
  | Some bytes => put_fs (<[file := File bytes]> m)
  | None => mret tt
  end;;
  match raised with
  | Some e => throw e
  | None => mret tt
  end.

(** *** [UpdateExifInPlace] *)

(** The tail of the [try] block, from [ImageFactory::open] to the [OK]
    line: what runs once the dry-run and backup steps let the file
    through.  [exifData()] returns a reference into the image, so the three
    assignments already change the image, and [setExifData(exif)] assigns
    the data to itself. *)
Definition write_timestamps (file dt : string) : M bool :=
  image ← Image_open file;
  if negb image then
    log (Stderr ("ERR: open failed: " +:+ quoted file +:+ nl));;
    mret false
  else
    exif ← Image_readMetadata file;
    let exif := <["Exif.Photo.DateTimeOriginal" := dt]> exif in
    let exif := <["Exif.Photo.DateTimeDigitized" := dt]> exif in
    let exif := <["Exif.Image.DateTime" := dt]> exif in
    Image_writeMetadata file exif;;
    log (Stdout ("OK : " +:+ quoted file +:+ nl));;
    mret true.

(** Lines 78 to 89, the body of [if (make_backup)]: [false] stands for
    the two [return false], [true] for falling through to the mutation. *)
Definition ensure_backup (file : string) : M bool :=
  let backup_path := backup_path_of file in
  present ← fs_exists backup_path;
  if present : bool then
    log (Stderr ("ERR: backup already exists, skip: "
                 +:+ quoted backup_path +:+ nl));;
    mret false
  else
    '(copied, err) ← CopyFileBinary file backup_path "";
    if negb copied then
      log (Stderr ("ERR: backup failed: " +:+ quoted file
                   +:+ " : " +:+ err +:+ nl));;
      mret false
    else mret true.

(** The [try] block. *)
Definition UpdateExifInPlace_try (file dt : string) (dry_run make_backup : bool)
  : M bool :=
  if dry_run then
    log (Stdout ("DRY: " +:+ quoted file +:+ nl));;
    mret true
  else
    backed_up ← (if make_backup then ensure_backup file else mret true);
    if backed_up : bool then write_timestamps file dt
    else mret false.

(** The two [catch] clauses; they have the same body. *)
Definition UpdateExifInPlace_catch (file : string) (e : exn) : M bool :=
  match e with
  | Exiv2_Error msg =>
      log (Stderr ("ERR: " +:+ quoted file +:+ " : " +:+ msg +:+ nl));;
      mret false
  | std_exception msg =>
      log (Stderr ("ERR: " +:+ quoted file +:+ " : " +:+ msg +:+ nl));;
      mret false
  end.

Definition UpdateExifInPlace (file dt : string) (dry_run make_backup : bool)
  : M bool :=
  try_catch (UpdateExifInPlace_try file dt dry_run make_backup)
            (UpdateExifInPlace_catch file).

(** *** [main] *)

(** The lambda [process_entry] from the answer of [is_regular_file()]
    on; the counters it captures are passed in and out. *)
Definition process_entry (dt : string) (o : options)
    (e : directory_entry) (c : counters) : M counters :=
  if negb (is_regular_file e) then mret c
  else
    let p := path e in
    if negb (IsJpegPath (format H) p) then
      mret (Counters (total c) (ok c) (size_t_incr (skipped c)))
    else
      let c := Counters (size_t_incr (total c)) (ok c) (skipped c) in
      updated ← UpdateExifInPlace p dt (dry_run o) (make_backup o);
      if updated : bool
      then mret (Counters (total c) (size_t_incr (ok c)) (skipped c))
      else mret c.

(** The lambda [process_entry] on what the iterator yields:
    [e.is_regular_file()] comes first and may throw. *)
Definition process_item (dt : string) (o : options)
    (it : dir_item) (c : counters) : M counters :=
  regular ← lift_result (item_regular it);
  process_entry dt o (Entry (item_path it) regular) c.

(** The body of either range-[for] loop of [main], run over a list of
    entries whose [is_regular_file()] has answered. *)
Fixpoint process_entries (dt : string) (o : options)
    (es : list directory_entry) (c : counters) : M counters :=
  match es with
  | [] => mret c
  | e :: rest =>
      c' ← process_entry dt o e c;
      process_entries dt o rest c'
  end.

(** Either range-[for] loop of [main] over the positions of a directory
    stream: each position is resolved in the file system that the files
    before it have left, and an exception of the increment or of
    [is_regular_file()] ends the loop and leaves it. *)
Fixpoint process_stream (dt : string) (o : options)
    (slots : list dir_slot) (c : counters) : M counters :=
  match slots with
  | [] => mret c
  | slot :: rest =>
      m ← get_fs;
      next ← lift_result (slot m);
      match next with
      | None => process_stream dt o rest c
      | Some it =>
          c' ← process_item dt o it c;
          process_stream dt o rest c'
      end
  end.

(** Lines 159 to 180: the counters start at zero, the iterator that
    [recursive] selects is constructed, and the loop runs over it.  No
    handler surrounds the loops: an exception of the iterator leaves
    [main]. *)
Definition run_batch (folder dt : string) (o : options) : M counters :=
  m ← get_fs;
  slots ← lift_result
            (if recursive o then recursive_directory_iterator H m folder
             else directory_iterator H m folder);
  process_stream dt o slots (Counters 0%Z 0%Z 0%Z).

Definition summary_line (c : counters) : string :=
  "Done. Updated " +:+ pretty (ok c) +:+ " / " +:+ pretty (total c)
  +:+ " JPEG files. Skipped(non-jpeg): " +:+ pretty (skipped c) +:+ nl.

(** [return (ok == total ? 0 : 1)]. *)
Definition exit_status (c : counters) : Z :=
  if (ok c =? total c)%Z then 0%Z else 1%Z.

(** [main(argc, argv)]: [argv] is the whole argument vector, program name
    first, and [argc] its length; the result is the exit status.  A result
    [Throw] is an exception that leaves [main]: the run ends in
    [std::terminate], without the summary line and without an exit status
    of the program's own. *)
Definition main (argv : list string) : M Z :=
  if (length argv <? 3)%nat then
    PrintUsage;;
    mret 2%Z
  else
    let folder := nth 1 argv "" in
    let dt := nth 2 argv "" in
    match parse_options (drop 3 argv) default_options with
    | inl opt =>
        log (Stderr ("Unknown option: " +:+ opt +:+ nl));;
        PrintUsage;;
        mret 2%Z
    | inr o =>
        if negb (IsValidExifDateTime dt) then
          log (Stderr ("Invalid datetime. Expected: " +:+ String dquote
                       "YYYY:MM:DD HH:MM:SS" +:+ String dquote nl));;
          mret 2%Z
        else
          m ← get_fs;
          if negb (fs_exists_ec m folder) || negb (fs_is_directory_ec m folder)
          then
            log (Stderr ("Folder does not exist or is not a directory: "
                         +:+ quoted folder +:+ nl));;
            mret 2%Z
          else
            c ← run_batch folder dt o;
            log (Stdout (summary_line c));;
            mret (exit_status c)
    end.

End Program.

(* ===================================================================== *)
(** ** Vocabulary of the specification *)
(* ===================================================================== *)

(** A decimal digit, by enumeration. *)
Definition decimal_digit (c : ascii) : Prop :=
  In c (list_ascii_of_string "0123456789").

(** The lexical pattern [DDDD:DD:DD DD:DD:DD], in the words of the
    specification: 19 characters, a colon at indices 4, 7, 13 and 16, a space
    at index 10, a decimal digit everywhere else. *)
Definition exif_datetime_shape (s : string) : Prop :=
  String.length s = 19%nat ∧
  ∀ (i : nat) (c : ascii), String.get i s = Some c →
    if bool_decide (i ∈ [4; 7; 13; 16]%nat) then c = ":"%char
    else if bool_decide (i = 10%nat) then c = " "%char
    else decimal_digit c.

(** A candidate: a regular file that passes the type filter.  The other
    regular files are skipped by type. *)
Definition candidate (fmt : path_format) (e : directory_entry) : bool :=
  is_regular_file e && IsJpegPath fmt (path e).

Definition skipped_by_type (fmt : path_format) (e : directory_entry) : bool :=
  is_regular_file e && negb (IsJpegPath fmt (path e)).

(** Console output, as opposed to file-system and codec activity. *)
Definition console (e : event) : bool :=
  match e with
  | Stdout _ | Stderr _ => true
  | _ => false
  end.

Definition is_stderr (e : event) : bool :=
  match e with
  | Stderr _ => true
  | _ => false
  end.

(** The calls into the metadata codec: the mutation and its
    preparation. *)
Definition codec_event (e : event) : bool :=
  match e with
  | ImageOpen _ | ReadMetadata _ | WriteMetadata _ => true
  | _ => false
  end.

(** The images handed to the codec, in order: one entry per attempt. *)
Definition image_opens (evs : list event) : list string :=
  flat_map (fun e => match e with ImageOpen p => [p] | _ => [] end) evs.

Definition known_option (opt : string) : bool :=
  (opt =? "--recursive") || (opt =? "--dry-run") || (opt =? "--no-backup").

(** The root exists and is a directory. *)
Definition root_is_directory (H : Host) (m : gmap string node) (root : string)
  : Prop :=
  status_fault H root = None ∧ m !! root = Some Directory.


(** The lines that [UpdateExifInPlace] writes to [std::cerr]. *)
Definition backup_exists_line (file : string) : string :=
  "ERR: backup already exists, skip: " +:+ quoted (backup_path_of file) +:+ nl.

Definition backup_failed_line (file cause : string) : string :=
  "ERR: backup failed: " +:+ quoted file +:+ " : " +:+ cause +:+ nl.

Definition caught_line (file : string) (e : exn) : string :=
  "ERR: " +:+ quoted file +:+ " : " +:+ what e +:+ nl.

Definition is_stdout (e : event) : bool :=
  match e with
  | Stdout _ => true
  | _ => false
  end.

(** How many lines a stretch of the trace prints. *)
Definition console_lines (evs : list event) : nat :=
  length (filter (λ e, console e = true) evs).

(** The counters after a candidate ([++total], and [++ok] when it was
    updated) and after a file skipped by type ([++skipped]). *)
Definition count_updated (updated : bool) (c : counters) : counters :=
  Counters (size_t_incr (total c))
           (if updated then size_t_incr (ok c) else ok c)
           (skipped c).

Definition count_skipped (c : counters) : counters :=
  Counters (total c) (ok c) (size_t_incr (skipped c)).

(** The backup copy of [file] in the file system [m]: how many of its
    bytes the stream on the backup path accepts, and how many of them are
    in the backup once the stream is closed.  The stream is opened, and the
    backup created empty, before the copying starts. *)
Definition backup_inserted (H : Host) (file : string) (m : gmap string node)
  : nat :=
  inserted_length H (<[backup_path_of file := File []]> m)
    (backup_path_of file) (file_bytes m file).

Definition backup_kept (H : Host) (file : string) (m : gmap string node)
  : nat :=
  kept_length H (<[backup_path_of file := File []]> m)
    (backup_path_of file) (file_bytes m file).

(** Whether a read stream opens on [p], and the bytes it finds, from
    what is at the path. *)
Definition node_readable (H : Host) (p : string) (n : option node) : bool :=
  match n with
  | Some (File _) => negb (open_in_denied H p)
  | Some Directory => ifstream_opens_directory H && negb (open_in_denied H p)
  | None => false
  end.

Definition node_bytes (n : option node) : list byte :=
  match n with
  | Some (File bytes) => bytes
  | _ => []
  end.

(** What [CopyFileBinary] does for [file] when its backup path is free:
    the flag, the cause, the file system afterwards and the streams it
    opened. *)
Definition copy_outcome (H : Host) (file : string) (m : gmap string node)
  : bool * string * gmap string node * list event :=
  let bak := backup_path_of file in
  if readable H m file then
    if open_out_denied H bak then
      (false, "failed to open destination for backup", m,
       [OpenIn file; OpenOut bak])
    else
      let data := file_bytes m file in
      let left := <[bak := File (take (backup_kept H file m) data)]> m in
      if negb (backup_inserted H file m =? 0)%nat
      then (true, "", left, [OpenIn file; OpenOut bak])
      else (false, "failed while writing backup", left,
            [OpenIn file; OpenOut bak])
  else (false, "failed to open source for backup", m, [OpenIn file]).


(** [wp m Q w]: running [m] in [w] ends in a result and a world that
    satisfy [Q]. *)
Definition wp {A : Type} (m : M A) (Q : result A → world → Prop) (w : world)
  : Prop :=
  Q (m w).1 (m w).2.

(** *** Vocabulary of the traversal *)

(** The position of a stream that yields [e], whatever the file system
    holds, and the stream that yields a listing taken beforehand. *)
Definition yields (e : directory_entry) : dir_slot :=
  λ _, Ret (Some (Item (path e) (Ret (is_regular_file e)))).

Definition snapshot (es : list directory_entry) : list dir_slot :=
  yields <$> es.

(** What a traversal comes to: the entries that the stream yields to the
    loop, in order, and the exception that ends the traversal, if one
    does.  The entry of a position is found in the file system that the
    entries before it have left. *)
Fixpoint traversal (H : Host) {X : Exiv2} (dt : string) (o : options)
    (slots : list dir_slot) (c : counters) (w : world)
  : list directory_entry * option exn :=
  match slots with
  | [] => ([], None)
  | slot :: rest =>
      match slot (fs w) with
      | Throw e => ([], Some e)
      | Ret None => traversal H dt o rest c w
      | Ret (Some it) =>
          match item_regular it with
          | Throw e => ([], Some e)
          | Ret regular =>
              let e := Entry (item_path it) regular in
              let '(r, w') := process_entry H dt o e c w in
              let c' := match r with Ret c' => c' | Throw _ => c end in
              let '(es, fault) := traversal H dt o rest c' w' in
              (e :: es, fault)
          end
      end
  end.

(** The traversal of a batch: that of the stream of the iterator which
    [recursive] selects, or the exception of its construction. *)
Definition batch_traversal (H : Host) {X : Exiv2} (folder dt : string)
    (o : options) (w : world) : list directory_entry * option exn :=
  match (if recursive o then recursive_directory_iterator H (fs w) folder
         else directory_iterator H (fs w) folder) with
  | Ret slots => traversal H dt o slots (Counters 0 0 0) w
  | Throw x => ([], Some x)
  end.






#[global] Instance directory_entry_eq_dec : EqDecision directory_entry.
Proof. solve_decision. Defined.

(** The calls that processing [file] may make: the existence check and the
    write stream on its backup path, the read stream and the codec on the
    file itself, and lines on the console. *)
Definition in_footprint (file : string) (e : event) : bool :=
  match e with
  | Stdout _ | Stderr _ => true
  | FsExists p | OpenOut p => (p =? backup_path_of file)
  | OpenIn p | ImageOpen p | ReadMetadata p | WriteMetadata p => (p =? file)
  end.

(** *** Vocabulary of the further properties *)

(** An upper-case letter of the "C" locale. *)
Definition is_upper (c : ascii) : bool :=
  (Ascii.leb "A" c) && (Ascii.leb c "Z").

(** The Exif data that [UpdateExifInPlace] hands to [writeMetadata]: the
    data read from the image with the three date tags assigned, in the order
    of the source. *)
Definition stamped (dt : string) (exif : ExifData) : ExifData :=
  <["Exif.Image.DateTime" := dt]>
    (<["Exif.Photo.DateTimeDigitized" := dt]>
       (<["Exif.Photo.DateTimeOriginal" := dt]> exif)).

Definition date_tag (key : string) : bool :=
  (key =? "Exif.Photo.DateTimeOriginal")
  || (key =? "Exif.Photo.DateTimeDigitized")
  || (key =? "Exif.Image.DateTime").

Definition open_failed_line (file : string) : string :=
  "ERR: open failed: " +:+ quoted file +:+ nl.

Definition ok_line (file : string) : string :=
  "OK : " +:+ quoted file +:+ nl.

(** What the mutation does to an image, given what is on disk at its
    path: the result, the bytes the codec leaves in the file ([None]: file
    not touched), and the events. *)
Definition mutate_outcome {X : Exiv2} (file dt : string) (n : option node)
  : bool * option (list byte) * list event :=
  match ImageFactory_open file n with
  | Throw e => (false, None, [ImageOpen file; Stderr (caught_line file e)])
  | Ret false => (false, None, [ImageOpen file; Stderr (open_failed_line file)])
  | Ret true =>
      match readMetadata file n with
      | Throw e =>
          (false, None,
           [ImageOpen file; ReadMetadata file; Stderr (caught_line file e)])
      | Ret exif =>
          match writeMetadata file n (stamped dt exif) with
          | (left_on_disk, Some e) =>
              (false, left_on_disk,
               [ImageOpen file; ReadMetadata file; WriteMetadata file;
                Stderr (caught_line file e)])
          | (left_on_disk, None) =>
              (true, left_on_disk,
               [ImageOpen file; ReadMetadata file; WriteMetadata file;
                Stdout (ok_line file)])
          end
      end
  end.

(** A node written at a path, or the map left alone. *)
Definition put_node (p : string) (n : option node) (m : gmap string node)
  : gmap string node :=
  match n with
  | Some x => <[p := x]> m
  | None => m
  end.

(** How many lines a stretch of the trace writes to [std::cerr]. *)
Definition stderr_lines (evs : list event) : nat :=
  length (filter (λ e, is_stderr e = true) evs).

(* ===================================================================== *)
(** ** A concrete directory, host and codec *)
(* ===================================================================== *)

(** The scenario of the specification: two images, one of them with an
    upper-case extension, a text file, and a sub-directory. *)
Definition photos_listing : list directory_entry :=
  [Entry "photos/a.jpg" true; Entry "photos/b.JPEG" true;
   Entry "photos/notes.txt" true; Entry "photos/sub" false].

Definition photos_fs : gmap string node :=
  <["photos" := Directory]>
    (<["photos/a.jpg" := File [x0a; x01]%byte]>
       (<["photos/b.JPEG" := File [x0b; x02]%byte]>
          (<["photos/notes.txt" := File []]>
             (<["photos/sub" := Directory]> ∅)))).

(** A host without faults, where every byte reaches the disk, that lists
    [photos_listing] for every folder. *)
Definition quiet_host : Host := {|
  format := posix;
  status_fault := λ _, None;
  open_in_denied := λ _, false;
  open_out_denied := λ _, false;
  ifstream_opens_directory := true;
  stream_accepts := λ _ _ n, n;
  disk_keeps := λ _ _ n, n;
  directory_iterator := λ _ _, Ret (snapshot photos_listing);
  recursive_directory_iterator := λ _ _, Ret (snapshot photos_listing)
|}.

(** A codec that opens every regular file and rewrites it with one byte
    in front. *)
Definition stamping_codec : Exiv2 := {|
  ImageFactory_open := λ _ n,
    match n with
    | Some (File _) => Ret true
    | _ => Throw (Exiv2_Error "failed to open the data source")
    end;
  readMetadata := λ _ _, Ret ∅;
  writeMetadata := λ _ n _,
    match n with
    | Some (File bytes) => (Some (xff :: bytes)%byte, None)
    | _ => (None, Some (Exiv2_Error "failed to write"))
    end
|}.

(** A codec that rejects every image. *)
Definition failing_codec : Exiv2 := {|
  ImageFactory_open := λ _ _, Throw (Exiv2_Error "not a supported image");
  readMetadata := λ _ _, Throw (Exiv2_Error "no metadata");
  writeMetadata := λ _ _ _, (None, Some (Exiv2_Error "failed to write"))
|}.

(** A codec whose [ImageFactory::open] returns a null handle. *)
Definition null_codec : Exiv2 := {|
  ImageFactory_open := λ _ _, Ret false;
  readMetadata := λ _ _, Ret ∅;
  writeMetadata := λ _ _ _, (None, None)
|}.

(** A host on which the status of no path can be queried. *)
Definition locked_host : Host := {|
  format := posix;
  status_fault := λ _, Some "Permission denied";
  open_in_denied := λ _, false;
  open_out_denied := λ _, false;
  ifstream_opens_directory := true;
  stream_accepts := λ _ _ n, n;
  disk_keeps := λ _ _ n, n;
  directory_iterator := λ _ _, Ret (snapshot photos_listing);
  recursive_directory_iterator := λ _ _, Ret (snapshot photos_listing)
|}.

(** A host with a full disk: the stream takes every byte into its buffer
    and none of them reaches the file. *)
Definition full_disk_host : Host := {|
  format := posix;
  status_fault := λ _, None;
  open_in_denied := λ _, false;
  open_out_denied := λ _, false;
  ifstream_opens_directory := true;
  stream_accepts := λ _ _ n, n;
  disk_keeps := λ _ _ _, 0%nat;
  directory_iterator := λ _ _, Ret (snapshot photos_listing);
  recursive_directory_iterator := λ _ _, Ret (snapshot photos_listing)
|}.





(* ===================================================================== *)
(** ** Proofs: the pure helpers *)
(* ===================================================================== *)

(** *** The validator *)

Lemma is_digit_spec c : is_digit c = true ↔ decimal_digit c.
Proof.
  unfold decimal_digit. split.
  - destruct c as [[] [] [] [] [] [] [] []]; vm_compute; intros;
      try discriminate; tauto.
  - intros Hin. simpl in Hin.
    repeat (destruct Hin as [<- | Hin]; [reflexivity|]). destruct Hin.
Qed.

Lemma string_of_length_19 (s : string) :
  String.length s = 19%nat →
  ∃ c0 c1 c2 c3 c4 c5 c6 c7 c8 c9 c10 c11 c12 c13 c14 c15 c16 c17 c18,
    s = String c0 (String c1 (String c2 (String c3 (String c4 (String c5
        (String c6 (String c7 (String c8 (String c9 (String c10 (String c11
        (String c12 (String c13 (String c14 (String c15 (String c16
        (String c17 (String c18 "")))))))))))))))))).
Proof.
  intros Hlen.
  do 19 (destruct s as [| ? s]; [discriminate Hlen | simpl in Hlen; apply Nat.succ_inj in Hlen]).
  destruct s; [| discriminate Hlen].
  repeat eexists.
Qed.

Lemma IsValidExifDateTime_shape (s : string) :
  IsValidExifDateTime s = true ↔ exif_datetime_shape s.
Proof. unfold IsValidExifDateTime, exif_datetime_shape. split.
  - destruct (String.length s =? 19)%nat eqn:Hlen; simpl; [| discriminate].
    apply Nat.eqb_eq in Hlen. intros Hvalid. split; [exact Hlen |].
    destruct (string_of_length_19 s Hlen) as
      (c0 & c1 & c2 & c3 & c4 & c5 & c6 & c7 & c8 & c9 & c10 & c11 & c12
       & c13 & c14 & c15 & c16 & c17 & c18 & ->).
    cbn in Hvalid.
    destruct (is_digit c0) eqn:D0; [| discriminate].
    destruct (is_digit c1) eqn:D1; [| discriminate].
    destruct (is_digit c2) eqn:D2; [| discriminate].
    destruct (is_digit c3) eqn:D3; [| discriminate].
    destruct (is_digit c5) eqn:D5; [| discriminate].
    destruct (is_digit c6) eqn:D6; [| discriminate].
    destruct (is_digit c8) eqn:D8; [| discriminate].
    destruct (is_digit c9) eqn:D9; [| discriminate].
    destruct (is_digit c11) eqn:D11; [| discriminate].
    destruct (is_digit c12) eqn:D12; [| discriminate].
    destruct (is_digit c14) eqn:D14; [| discriminate].
    destruct (is_digit c15) eqn:D15; [| discriminate].
    destruct (is_digit c17) eqn:D17; [| discriminate].
    destruct (is_digit c18) eqn:D18; [| discriminate].
    cbn in Hvalid.
    repeat (apply andb_prop in Hvalid; destruct Hvalid as [Hvalid ?]).
    repeat match goal with
           | E : (_ =? _)%char = true |- _ => apply Ascii.eqb_eq in E; subst
           | E : is_digit _ = true |- _ => apply is_digit_spec in E
           end.
    intros i c Hget.
    do 19 (destruct i as [| i];
           [cbn in Hget; injection Hget as <-; vm_compute bool_decide; cbn;
            try assumption; try reflexivity |]).
    cbn in Hget. discriminate.
  - intros [Hlen Hshape].
    destruct (string_of_length_19 s Hlen) as
      (c0 & c1 & c2 & c3 & c4 & c5 & c6 & c7 & c8 & c9 & c10 & c11 & c12
       & c13 & c14 & c15 & c16 & c17 & c18 & ->).
    pose proof (Hshape 0%nat _ eq_refl) as H0.
    pose proof (Hshape 1%nat _ eq_refl) as H1.
    pose proof (Hshape 2%nat _ eq_refl) as H2.
    pose proof (Hshape 3%nat _ eq_refl) as H3.
    pose proof (Hshape 4%nat _ eq_refl) as H4.
    pose proof (Hshape 5%nat _ eq_refl) as H5.
    pose proof (Hshape 6%nat _ eq_refl) as H6.
    pose proof (Hshape 7%nat _ eq_refl) as H7.
    pose proof (Hshape 8%nat _ eq_refl) as H8.
    pose proof (Hshape 9%nat _ eq_refl) as H9.
    pose proof (Hshape 10%nat _ eq_refl) as H10.
    pose proof (Hshape 11%nat _ eq_refl) as H11.
    pose proof (Hshape 12%nat _ eq_refl) as H12.
    pose proof (Hshape 13%nat _ eq_refl) as H13.
    pose proof (Hshape 14%nat _ eq_refl) as H14.
    pose proof (Hshape 15%nat _ eq_refl) as H15.
    pose proof (Hshape 16%nat _ eq_refl) as H16.
    pose proof (Hshape 17%nat _ eq_refl) as H17.
    pose proof (Hshape 18%nat _ eq_refl) as H18.
    clear Hshape Hlen.
    vm_compute bool_decide in *. cbn iota in *. subst.
    repeat match goal with
           | E : decimal_digit _ |- _ => apply is_digit_spec in E
           end.
    cbn. rewrite H0, H1, H2, H3, H5, H6, H8, H9, H11, H12, H14, H15, H17, H18.
    reflexivity.
Qed.

(** *** Paths with the backup suffix *)
Lemma has_separator_app fmt a b :
  has_separator fmt (a +:+ b) = has_separator fmt a || has_separator fmt b.
Proof.
  induction a as [| c r IH]; simpl; [reflexivity |].
  rewrite IH. apply orb_assoc.
Qed.

Lemma last_element_no_separator fmt b :
  has_separator fmt b = false → last_element fmt b = b.
Proof.
  destruct b as [| c r]; simpl; [reflexivity |].
  intros Hsep. apply orb_false_elim in Hsep as [Hc Hr].
  rewrite Hr, Hc. reflexivity.
Qed.

Lemma last_element_app fmt a b :
  has_separator fmt b = false →
  last_element fmt (a +:+ b) = last_element fmt a +:+ b.
Proof.
  intros Hb. induction a as [| c r IH]; simpl.
  - apply last_element_no_separator, Hb.
  - rewrite has_separator_app, Hb, orb_false_r, IH.
    destruct (has_separator fmt r); [reflexivity |].
    destruct (is_separator fmt c); reflexivity.
Qed.

Lemma strip_root_name_backup fmt p :
  strip_root_name fmt (p +:+ ".bak") = strip_root_name fmt p +:+ ".bak".
Proof.
  destruct fmt; [reflexivity |].
  destruct p as [| d [| c r]]; simpl; try reflexivity.
  - rewrite andb_false_r. reflexivity.
  - destruct (is_alpha d && (c =? ":")%char); reflexivity.
Qed.

Lemma filename_backup fmt p :
  filename fmt (p +:+ ".bak") = filename fmt p +:+ ".bak".
Proof.
  unfold filename. rewrite strip_root_name_backup.
  apply last_element_app. destruct fmt; reflexivity.
Qed.

Lemma rfind_dot_backup f : rfind "." (f +:+ ".bak") = Some (String.length f).
Proof.
  induction f as [| a r IH]; simpl; [reflexivity |].
  rewrite IH. reflexivity.
Qed.

Lemma substr_from_app f t : substr_from (String.length f) (f +:+ t) = t.
Proof.
  induction f as [| a r IH]; simpl; [destruct t; reflexivity | exact IH].
Qed.

Lemma length_append a b :
  String.length (a +:+ b) = (String.length a + String.length b)%nat.
Proof.
  induction a as [| c r IH]; simpl; [reflexivity | rewrite IH; reflexivity].
Qed.

Lemma extension_backup fmt p :
  extension fmt (backup_path_of p)
  = match filename fmt p with
    | EmptyString => ""
    | String _ _ => ".bak"
    end.
Proof.
  unfold extension, backup_path_of. rewrite filename_backup.
  set (f := filename fmt p).
  assert (Hdot : (f +:+ ".bak" =? ".") = false).
  { apply String.eqb_neq. intros E. apply (f_equal String.length) in E.
    rewrite length_append in E. simpl in E. lia. }
  assert (Hdotdot : (f +:+ ".bak" =? "..") = false).
  { apply String.eqb_neq. intros E. apply (f_equal String.length) in E.
    rewrite length_append in E. simpl in E. lia. }
  rewrite Hdot, Hdotdot, rfind_dot_backup.
  destruct f as [| a r]; [reflexivity |].
  apply (substr_from_app (String a r) ".bak").
Qed.

Lemma IsJpegPath_backup fmt p : IsJpegPath fmt (backup_path_of p) = false.
Proof.
  unfold IsJpegPath. rewrite extension_backup.
  destruct (filename fmt p); reflexivity.
Qed.

(* ===================================================================== *)
(** ** Proofs: reasoning about computations in [M] *)
(* ===================================================================== *)

Section WP.
Context {A B : Type}.
Implicit Types (Q : result A → world → Prop) (w : world).

Lemma wp_ret (a : A) Q w : Q (Ret a) w → wp (mret a) Q w.
Proof. exact id. Qed.

Lemma wp_bind (m : M B) (k : B → M A) Q w :
  wp m (λ r w', match r with
                | Ret b => wp (k b) Q w'
                | Throw e => Q (Throw e) w'
                end) w →
  wp (m ≫= k) Q w.
Proof.
  unfold wp, mbind, M_bind. destruct (m w) as [[b | e] w']; exact id.
Qed.

Lemma wp_throw (e : exn) Q w : Q (Throw e) w → wp (throw e) Q w.
Proof. exact id. Qed.

Lemma wp_lift_result (r : result A) Q w : Q r w → wp (lift_result r) Q w.
Proof. exact id. Qed.

Lemma wp_try_catch (body : M A) (handler : exn → M A) Q w :
  wp body (λ r w', match r with
                   | Ret a => Q (Ret a) w'
                   | Throw e => wp (handler e) Q w'
                   end) w →
  wp (try_catch body handler) Q w.
Proof.
  unfold wp, try_catch. destruct (body w) as [[a | e] w']; exact id.
Qed.

End WP.

Lemma wp_log (e : event) (Q : result () → world → Prop) w :
  Q (Ret ()) (World (fs w) (trace w ++ [e])) → wp (log e) Q w.
Proof. exact id. Qed.

Lemma wp_get_fs (Q : result (gmap string node) → world → Prop) w :
  Q (Ret (fs w)) w → wp get_fs Q w.
Proof. exact id. Qed.

Lemma wp_put_fs m (Q : result () → world → Prop) w :
  Q (Ret ()) (World m (trace w)) → wp (put_fs m) Q w.
Proof. exact id. Qed.

(** One step of symbolic execution: [wp_simple] runs a primitive of the
    monad, [wp_case] splits on the scrutinee of a branch. *)
Ltac wp_simple :=
  lazymatch goal with
  | |- wp (mbind _ _) _ _ => apply wp_bind
  | |- wp (mret _) _ _ => apply wp_ret
  | |- wp (log _) _ _ => apply wp_log
  | |- wp get_fs _ _ => apply wp_get_fs
  | |- wp (put_fs _) _ _ => apply wp_put_fs
  | |- wp (throw _) _ _ => apply wp_throw
  | |- wp (lift_result _) _ _ => apply wp_lift_result
  | |- wp (try_catch _ _) _ _ => apply wp_try_catch
  end; cbn [fs trace negb].

Ltac wp_case :=
  lazymatch goal with
  | |- wp (if ?b then _ else _) _ _ => destruct b eqn:?
  | |- wp (match ?x with _ => _ end) _ _ => destruct x eqn:?
  | |- match ?x with _ => _ end => destruct x eqn:?
  end; cbn [fs trace negb].

Ltac wp_step := first [wp_simple | wp_case].

Ltac wp_pure := cbn [fs trace negb]; repeat wp_simple.

Ltac wp_go := cbn [fs trace negb]; repeat wp_step.

(** Bring a trace to the form [trace w ++ [e1; ...; en]]. *)
Ltac trace_norm := rewrite <- ?app_assoc; cbn [app].

(* ===================================================================== *)
(** ** Proofs: the program *)
(* ===================================================================== *)

Section Proofs.
Context (H : Host) {X : Exiv2}.

Lemma backup_path_ne (file : string) : backup_path_of file ≠ file.
Proof.
  intros E. apply (f_equal String.length) in E.
  unfold backup_path_of in E. rewrite length_append in E. simpl in E. lia.
Qed.

Lemma wp_eq {A : Type} (m : M A) (w : world) (x : result A * world) :
  wp m (λ r w', (r, w') = x) w → m w = x.
Proof. unfold wp. destruct (m w). exact id. Qed.

(** *** Streams *)

Lemma wp_fs_exists (p : string) (Q : result bool → world → Prop) w :
  match status_fault H p with
  | Some msg =>
      Q (Throw (std_exception msg)) (World (fs w) (trace w ++ [FsExists p]))
  | None =>
      Q (Ret (bool_decide (is_Some (fs w !! p))))
        (World (fs w) (trace w ++ [FsExists p]))
  end →
  wp (fs_exists H p) Q w.
Proof.
  intros HQ. unfold fs_exists. wp_pure. revert HQ.
  destruct (status_fault H p); intros HQ; wp_pure; exact HQ.
Qed.

Lemma wp_stream_copy (src dst : string) (Q : result bool → world → Prop) w :
  (let data := file_bytes (fs w) src in
   Q (Ret (negb (inserted_length H (fs w) dst data =? 0)%nat))
     (World (<[dst := File (take (kept_length H (fs w) dst data) data)]> (fs w))
            (trace w))) →
  wp (stream_copy H src dst) Q w.
Proof. intros HQ. unfold stream_copy. wp_pure. exact HQ. Qed.

(** [CopyFileBinary] from a source to a different destination, case by
    case. *)
Lemma wp_CopyFileBinary (src dst err : string)
    (Q : result (bool * string) → world → Prop) w :
  src ≠ dst →
  (if readable H (fs w) src then
     if open_out_denied H dst then
       Q (Ret (false, "failed to open destination for backup"))
         (World (fs w) (trace w ++ [OpenIn src; OpenOut dst]))
     else
       match fs w !! dst with
       | Some Directory =>
           Q (Ret (false, "failed to open destination for backup"))
             (World (fs w) (trace w ++ [OpenIn src; OpenOut dst]))
       | _ =>
           let data := file_bytes (fs w) src in
           let m1 := <[dst := File []]> (fs w) in
           Q (Ret (if negb (inserted_length H m1 dst data =? 0)%nat
                   then (true, err)
                   else (false, "failed while writing backup")))
             (World (<[dst := File (take (kept_length H m1 dst data) data)]>
                       (fs w))
                    (trace w ++ [OpenIn src; OpenOut dst]))
       end
   else
     Q (Ret (false, "failed to open source for backup"))
       (World (fs w) (trace w ++ [OpenIn src]))) →
  wp (CopyFileBinary H src dst err) Q w.
Proof.
  intros Hne HQ.
  unfold CopyFileBinary, ifstream_open, ofstream_open_trunc.
  wp_pure. revert HQ.
  destruct (readable H (fs w) src); intros HQ; wp_pure; [| exact HQ].
  revert HQ.
  destruct (open_out_denied H dst); intros HQ; wp_pure;
    [trace_norm; exact HQ |].
  assert (Hcopy : ∀ t : list event,
    (let data := file_bytes (fs w) src in
     let m1 := <[dst := File []]> (fs w) in
     Q (Ret (if negb (inserted_length H m1 dst data =? 0)%nat
             then (true, err) else (false, "failed while writing backup")))
       (World (<[dst := File (take (kept_length H m1 dst data) data)]> (fs w))
              t)) →
    wp (stream_copy H src dst)
       (λ r w', match r with
                | Ret good =>
                    wp (if negb good
                        then mret (false, "failed while writing backup")
                        else mret (true, err)) Q w'
                | Throw e => Q (Throw e) w'
                end)
       (World (<[dst := File []]> (fs w)) t)).
  { intros t HQ'. apply wp_stream_copy. cbn [fs trace].
    assert (Hsame : file_bytes (<[dst := File []]> (fs w)) src
                    = file_bytes (fs w) src).
    { unfold file_bytes. rewrite lookup_insert_ne; [reflexivity |].
      intros E. apply Hne. symmetry. exact E. }
    rewrite Hsame, insert_insert_eq. cbv zeta in HQ' |- *. revert HQ'.
    destruct (negb (inserted_length H (<[dst := File []]> (fs w)) dst
                      (file_bytes (fs w) src) =? 0)%nat);
      intros HQ'; wp_pure; exact HQ'. }
  revert HQ.
  destruct (fs w !! dst) as [[d |] |] eqn:Hdst; intros HQ; wp_pure.
  - apply Hcopy. trace_norm. exact HQ.
  - trace_norm. exact HQ.
  - apply Hcopy. trace_norm. exact HQ.
Qed.

(** *** The backup step *)

(** The backup step when the status of the backup path cannot be
    determined: [fs::exists] throws. *)
Lemma ensure_backup_status_fault (file msg : string) w :
  status_fault H (backup_path_of file) = Some msg →
  ensure_backup H file w
  = (Throw (std_exception msg),
     World (fs w) (trace w ++ [FsExists (backup_path_of file)])).
Proof.
  intros Hfault. apply wp_eq. unfold ensure_backup. cbv zeta.
  wp_pure. apply wp_fs_exists. rewrite Hfault. reflexivity.
Qed.

(** The backup step when the backup path is taken. *)
Lemma ensure_backup_exists (file : string) w :
  status_fault H (backup_path_of file) = None →
  is_Some (fs w !! backup_path_of file) →
  ensure_backup H file w
  = (Ret false,
     World (fs w) (trace w ++ [FsExists (backup_path_of file);
                               Stderr (backup_exists_line file)])).
Proof.
  intros Hfault Hsome. apply wp_eq. unfold ensure_backup. cbv zeta.
  wp_pure. apply wp_fs_exists. rewrite Hfault.
  rewrite bool_decide_eq_true_2 by exact Hsome.
  wp_pure. trace_norm. reflexivity.
Qed.

(** The backup step when the backup path is free: the outcome of the
    copy. *)
Lemma ensure_backup_fresh (file : string) w :
  status_fault H (backup_path_of file) = None →
  fs w !! backup_path_of file = None →
  ensure_backup H file w
  = let '(copied, cause, m', evs) := copy_outcome H file (fs w) in
    (Ret copied,
     World m' (trace w ++ FsExists (backup_path_of file) :: evs
               ++ if copied then []
                  else [Stderr (backup_failed_line file cause)])).
Proof.
  intros Hfault Hnone. apply wp_eq. unfold ensure_backup. cbv zeta.
  wp_pure. apply wp_fs_exists. rewrite Hfault.
  rewrite bool_decide_eq_false_2 by (rewrite Hnone; apply is_Some_None).
  wp_pure. apply wp_CopyFileBinary; [symmetry; apply backup_path_ne |].
  cbn [fs trace]. unfold copy_outcome. cbv zeta.
  destruct (readable H (fs w) file); [| wp_pure; trace_norm; reflexivity].
  destruct (open_out_denied H (backup_path_of file));
    [wp_pure; trace_norm; reflexivity |].
  rewrite Hnone. unfold backup_inserted, backup_kept.
  destruct (negb _); wp_pure; trace_norm; reflexivity.
Qed.


Lemma bind_run {A B : Type} (m : M A) (k : A → M B) (w : world) :
  (m ≫= k) w
  = match m w with
    | (Ret a, w') => k a w'
    | (Throw e, w') => (Throw e, w')
    end.
Proof. reflexivity. Qed.

Lemma image_opens_app (evs1 evs2 : list event) :
  image_opens (evs1 ++ evs2) = (image_opens evs1 ++ image_opens evs2)%list.
Proof. apply flat_map_app. Qed.

Lemma image_opens_no_codec (evs : list event) :
  Forall (λ e, codec_event e = false) evs → image_opens evs = [].
Proof.
  induction 1 as [| e evs He _ IH]; [reflexivity |].
  change (image_opens (e :: evs))
    with (match e with ImageOpen p => [p] | _ => [] end ++ image_opens evs)%list.
  rewrite IH. destruct e; try reflexivity; discriminate He.
Qed.

Lemma console_lines_app (evs1 evs2 : list event) :
  console_lines (evs1 ++ evs2) = (console_lines evs1 + console_lines evs2)%nat.
Proof. unfold console_lines. rewrite filter_app, length_app. reflexivity. Qed.

(** Whatever the host decides, the backup step stays away from the codec
    and from the image, and prints one line exactly when it stops the
    file. *)
Lemma ensure_backup_shape (file : string) w :
  ∃ r w1 evs,
    ensure_backup H file w = (r, w1)
    ∧ trace w1 = (trace w ++ evs)%list
    ∧ Forall (λ e, codec_event e = false) evs
    ∧ console_lines evs = match r with Ret false => 1%nat | _ => 0%nat end
    ∧ fs w1 !! file = fs w !! file.
Proof.
  destruct (status_fault H (backup_path_of file)) as [msg |] eqn:Hfault.
  { rewrite (ensure_backup_status_fault file msg) by exact Hfault.
    eexists _, _, _. split; [reflexivity |]. cbn [fs trace].
    repeat split. repeat constructor. }
  destruct (fs w !! backup_path_of file) as [n |] eqn:Hbak.
  { rewrite ensure_backup_exists by (rewrite ?Hbak; eauto).
    eexists _, _, _. split; [reflexivity |]. cbn [fs trace].
    repeat split. repeat constructor. }
  rewrite ensure_backup_fresh by assumption.
  unfold copy_outcome. cbv zeta.
  pose proof (backup_path_ne file) as Hne.
  destruct (readable H (fs w) file);
    [destruct (open_out_denied H (backup_path_of file));
       [| destruct (negb _)] |];
    eexists _, _, _; (split; [reflexivity |]); cbn [fs trace];
    (split; [reflexivity |]); (split; [repeat constructor |]);
    (split; [reflexivity |]);
    rewrite ?lookup_insert_ne by exact Hne; reflexivity.
Qed.

(** *** The mutation *)

Lemma write_timestamps_shape (file dt : string) w :
  wp (write_timestamps file dt)
     (λ r w', ∃ evs,
        trace w' = (trace w ++ evs)%list
        ∧ image_opens evs = [file]
        ∧ console_lines evs
          = match r with Ret _ => 1%nat | Throw _ => 0%nat end) w.
Proof.
  unfold write_timestamps, Image_open, Image_readMetadata, Image_writeMetadata.
  wp_go; eexists; (split; [trace_norm; reflexivity | split; reflexivity]).
Qed.

(** The mutation inside the [try] block: an exception of the codec ends
    in the [catch] clause, which prints the one line of the file. *)
Lemma write_timestamps_caught (file dt : string) w :
  ∃ updated w' evs,
    try_catch (write_timestamps file dt) (UpdateExifInPlace_catch file) w
    = (Ret updated, w')
    ∧ trace w' = (trace w ++ evs)%list
    ∧ image_opens evs = [file]
    ∧ console_lines evs = 1%nat.
Proof.
  pose proof (write_timestamps_shape file dt w) as Hshape.
  unfold wp in Hshape. unfold try_catch.
  destruct (write_timestamps file dt w) as [[updated | e] w1];
    cbn [fst snd] in Hshape; destruct Hshape as (evs & Htrace & Hopens & Hlines).
  - exists updated, w1, evs. split; [reflexivity |]. auto.
  - destruct e; cbn; eexists _, _, (evs ++ [_])%list;
      (split; [reflexivity |]); cbn [fs trace];
      rewrite Htrace, <- app_assoc, image_opens_app, console_lines_app,
        Hopens, Hlines; repeat split.
Qed.

(** *** [UpdateExifInPlace], case by case *)

Lemma UpdateExifInPlace_dry (file dt : string) (b : bool) w :
  UpdateExifInPlace H file dt true b w
  = (Ret true,
     World (fs w) (trace w ++ [Stdout ("DRY: " +:+ quoted file +:+ nl)])).
Proof. reflexivity. Qed.

Lemma UpdateExifInPlace_no_backup (file dt : string) w :
  UpdateExifInPlace H file dt false false w
  = try_catch (write_timestamps file dt) (UpdateExifInPlace_catch file) w.
Proof. reflexivity. Qed.

Lemma UpdateExifInPlace_backed_up (file dt : string) w w1 :
  ensure_backup H file w = (Ret true, w1) →
  UpdateExifInPlace H file dt false true w
  = try_catch (write_timestamps file dt) (UpdateExifInPlace_catch file) w1.
Proof.
  intros Hrun. unfold UpdateExifInPlace, UpdateExifInPlace_try, try_catch.
  rewrite bind_run, Hrun. reflexivity.
Qed.

Lemma UpdateExifInPlace_backup_stop (file dt : string) w r w1 :
  ensure_backup H file w = (r, w1) →
  r ≠ Ret true →
  UpdateExifInPlace H file dt false true w
  = (Ret false,
     match r with
     | Throw e => World (fs w1) (trace w1 ++ [Stderr (caught_line file e)])
     | Ret _ => w1
     end).
Proof.
  intros Hrun Hstop. unfold UpdateExifInPlace, UpdateExifInPlace_try, try_catch.
  rewrite bind_run, Hrun.
  destruct r as [[|] | e]; [contradiction | reflexivity | destruct e; reflexivity].
Qed.

(** Every call returns, prints one line, and hands the image to the codec
    at most once. *)
Lemma UpdateExifInPlace_shape (file dt : string) (d b : bool) w :
  ∃ updated w' evs,
    UpdateExifInPlace H file dt d b w = (Ret updated, w')
    ∧ trace w' = (trace w ++ evs)%list
    ∧ console_lines evs = 1%nat
    ∧ (image_opens evs = [] ∨ image_opens evs = [file])
    ∧ (d = false → b = false → image_opens evs = [file]).
Proof.
  destruct d.
  { rewrite UpdateExifInPlace_dry. eexists _, _, _.
    split; [reflexivity |]. cbn [fs trace].
    split_and!; try reflexivity; try discriminate; auto. }
  destruct b.
  - destruct (ensure_backup_shape file w)
      as (r & w1 & evs1 & Hrun & Htrace1 & Hcodec & Hlines1 & _).
    apply image_opens_no_codec in Hcodec.
    assert (Hcases : r = Ret true ∨ r ≠ Ret true)
      by (destruct r as [[|] | e]; [left; reflexivity | right; discriminate ..]).
    destruct Hcases as [-> | Hstop].
    + rewrite (UpdateExifInPlace_backed_up file dt w w1 Hrun).
      destruct (write_timestamps_caught file dt w1)
        as (updated & w' & evs2 & -> & Htrace2 & Hopens & Hlines2).
      exists updated, w', (evs1 ++ evs2)%list.
      rewrite Htrace2, Htrace1, <- app_assoc, image_opens_app,
        console_lines_app, Hcodec, Hopens, Hlines1, Hlines2.
      split_and!; try reflexivity; try discriminate; auto.
    + rewrite (UpdateExifInPlace_backup_stop file dt w r w1 Hrun Hstop).
      destruct r as [[|] | e]; [contradiction | |].
      * exists false, w1, evs1.
        split_and!; try reflexivity; try discriminate; auto.
      * eexists false, _, (evs1 ++ [_])%list. split; [reflexivity |].
        cbn [fs trace].
        rewrite Htrace1, <- app_assoc, image_opens_app, console_lines_app,
          Hcodec, Hlines1.
        split_and!; try reflexivity; try discriminate; auto.
  - rewrite UpdateExifInPlace_no_backup.
    destruct (write_timestamps_caught file dt w)
      as (updated & w' & evs & -> & Htrace & Hopens & Hlines).
    exists updated, w', evs.
    split_and!; try reflexivity; try discriminate; auto.
Qed.

(** *** The loop *)

Lemma process_entry_other (dt : string) (o : options) e c w :
  candidate (format H) e = false →
  process_entry H dt o e c w
  = (Ret (if skipped_by_type (format H) e then count_skipped c else c), w).
Proof.
  unfold candidate, skipped_by_type, process_entry.
  destruct (is_regular_file e); cbn [andb negb]; [| reflexivity].
  intros ->. reflexivity.
Qed.

Lemma process_entry_candidate (dt : string) (o : options) e c w updated w' :
  candidate (format H) e = true →
  UpdateExifInPlace H (path e) dt (dry_run o) (make_backup o) w
  = (Ret updated, w') →
  process_entry H dt o e c w = (Ret (count_updated updated c), w').
Proof.
  unfold candidate, process_entry. intros [-> ->]%andb_prop Hrun.
  cbn [negb]. rewrite bind_run. cbn [total ok skipped]. rewrite Hrun.
  destruct updated; reflexivity.
Qed.

Lemma process_entries_cons (dt : string) (o : options) e rest c w :
  process_entries H dt o (e :: rest) c w
  = match process_entry H dt o e c w with
    | (Ret c', w') => process_entries H dt o rest c' w'
    | (Throw x, w') => (Throw x, w')
    end.
Proof. reflexivity. Qed.

Lemma filter_candidate_cons (e : directory_entry) rest :
  filter (λ e, candidate (format H) e = true) (e :: rest)
  = if candidate (format H) e
    then e :: filter (λ e, candidate (format H) e = true) rest
    else filter (λ e, candidate (format H) e = true) rest.
Proof.
  destruct (candidate (format H) e) eqn:Hc.
  - apply filter_cons_True. exact Hc.
  - apply filter_cons_False. rewrite Hc. discriminate.
Qed.

Lemma filter_skipped_cons (e : directory_entry) rest :
  filter (λ e, skipped_by_type (format H) e = true) (e :: rest)
  = if skipped_by_type (format H) e
    then e :: filter (λ e, skipped_by_type (format H) e = true) rest
    else filter (λ e, skipped_by_type (format H) e = true) rest.
Proof.
  destruct (skipped_by_type (format H) e) eqn:Hc.
  - apply filter_cons_True. exact Hc.
  - apply filter_cons_False. rewrite Hc. discriminate.
Qed.

Lemma candidate_not_skipped (e : directory_entry) :
  candidate (format H) e = true → skipped_by_type (format H) e = false.
Proof.
  unfold candidate, skipped_by_type.
  intros [-> ->]%andb_prop. reflexivity.
Qed.

(** The loop returns for every list of entries, prints one line per
    candidate, and hands each candidate to the codec at most once, in the
    order of the traversal. *)
Lemma process_entries_shape (dt : string) (o : options) es :
  ∀ c w, ∃ c' w' evs,
    process_entries H dt o es c w = (Ret c', w')
    ∧ trace w' = (trace w ++ evs)%list
    ∧ console_lines evs
      = length (filter (λ e, candidate (format H) e = true) es)
    ∧ sublist (image_opens evs)
        (path <$> filter (λ e, candidate (format H) e = true) es)
    ∧ (dry_run o = false → make_backup o = false →
       image_opens evs
       = path <$> filter (λ e, candidate (format H) e = true) es).
Proof.
  induction es as [| e rest IH]; intros c w.
  { exists c, w, []. rewrite app_nil_r.
    split_and!; try reflexivity; constructor. }
  rewrite process_entries_cons, filter_candidate_cons.
  destruct (candidate (format H) e) eqn:Hcand.
  - destruct (UpdateExifInPlace_shape (path e) dt (dry_run o) (make_backup o) w)
      as (updated & w1 & evs1 & Hrun & Htrace1 & Hlines1 & Hopens1 & Hsure1).
    rewrite (process_entry_candidate dt o e c w updated w1 Hcand Hrun).
    destruct (IH (count_updated updated c) w1)
      as (c' & w' & evs2 & -> & Htrace2 & Hlines2 & Hsub2 & Hsure2).
    exists c', w', (evs1 ++ evs2)%list.
    rewrite Htrace2, Htrace1, <- app_assoc, image_opens_app,
      console_lines_app, Hlines1, Hlines2.
    split_and!; try reflexivity.
    + rewrite fmap_cons. destruct Hopens1 as [-> | ->].
      * apply sublist_cons. exact Hsub2.
      * apply sublist_skip. exact Hsub2.
    + intros Hd Hb. rewrite fmap_cons, (Hsure1 Hd Hb), (Hsure2 Hd Hb).
      reflexivity.
  - rewrite (process_entry_other dt o e c w Hcand).
    apply IH.
Qed.

Lemma size_t_incr_small (x : Z) :
  (0 ≤ x)%Z → (x + 1 ≤ SIZE_MAX)%Z → size_t_incr x = (x + 1)%Z.
Proof.
  intros Hlo Hhi. unfold size_t_incr. apply Z.mod_small. lia.
Qed.

(** Without wrap-around the counters count: [total] the candidates,
    [skipped] the files skipped by type, [ok] some of the candidates. *)
Lemma process_entries_counts (dt : string) (o : options) es :
  ∀ c w c' w',
    process_entries H dt o es c w = (Ret c', w') →
    (0 ≤ ok c ≤ total c)%Z →
    (total c + Z.of_nat (length es) ≤ SIZE_MAX)%Z →
    (0 ≤ skipped c)%Z →
    (skipped c + Z.of_nat (length es) ≤ SIZE_MAX)%Z →
    (0 ≤ ok c' ≤ total c')%Z
    ∧ total c'
      = (total c + Z.of_nat
           (length (filter (λ e, candidate (format H) e = true) es)))%Z
    ∧ skipped c'
      = (skipped c + Z.of_nat
           (length (filter (λ e, skipped_by_type (format H) e = true) es)))%Z.
Proof.
  induction es as [| e rest IH]; intros c w c' w' Hrun Hok Htotal Hsk Hskipped.
  { injection Hrun as <- <-. cbn. lia. }
  rewrite process_entries_cons in Hrun.
  rewrite filter_candidate_cons, filter_skipped_cons.
  cbn [length] in Htotal, Hskipped.
  destruct (candidate (format H) e) eqn:Hcand.
  - destruct (UpdateExifInPlace_shape (path e) dt (dry_run o) (make_backup o) w)
      as (updated & w1 & evs1 & Hupd & _).
    rewrite (process_entry_candidate dt o e c w updated w1 Hcand Hupd) in Hrun.
    rewrite (candidate_not_skipped e Hcand).
    assert (Ht : size_t_incr (total c) = (total c + 1)%Z)
      by (apply size_t_incr_small; lia).
    assert (Ho : size_t_incr (ok c) = (ok c + 1)%Z)
      by (apply size_t_incr_small; lia).
    apply IH in Hrun; unfold count_updated in *; cbn [total ok skipped] in *;
      rewrite ?Ht in *; [| destruct updated; rewrite ?Ho; lia | lia ..].
    cbn [length]. lia.
  - rewrite (process_entry_other dt o e c w Hcand) in Hrun.
    destruct (skipped_by_type (format H) e).
    + assert (Hs : size_t_incr (skipped c) = (skipped c + 1)%Z)
        by (apply size_t_incr_small; lia).
      apply IH in Hrun; unfold count_skipped in *; cbn [total ok skipped] in *;
        rewrite ?Hs in *; [| lia ..].
      cbn [length]. lia.
    + apply IH in Hrun; [| lia ..]. lia.
Qed.

(** In dry-run mode the loop only prints, and the two counters of the
    candidates move together. *)
Lemma process_entries_dry (dt : string) (r b : bool) es :
  ∀ c w, ∃ c' evs,
    process_entries H dt (Options r true b) es c w
    = (Ret c', World (fs w) (trace w ++ evs))
    ∧ Forall (λ e, is_stdout e = true) evs
    ∧ (ok c = total c → ok c' = total c').
Proof.
  induction es as [| e rest IH]; intros c w.
  { exists c, []. rewrite app_nil_r. destruct w. split_and!; auto. }
  rewrite process_entries_cons.
  destruct (candidate (format H) e) eqn:Hcand.
  - rewrite (process_entry_candidate dt (Options r true b) e c w true _ Hcand
               (UpdateExifInPlace_dry (path e) dt b w)).
    destruct (IH (count_updated true c)
                 (World (fs w)
                    (trace w ++ [Stdout ("DRY: " +:+ quoted (path e) +:+ nl)])))
      as (c' & evs & -> & Hout & Heq).
    cbn [fs trace]. eexists c', (_ :: evs). rewrite <- app_assoc.
    split_and!; [reflexivity | constructor; [reflexivity | exact Hout] |].
    intros Hc. apply Heq. cbn. rewrite Hc. reflexivity.
  - rewrite (process_entry_other dt _ e c w Hcand).
    destruct (IH (if skipped_by_type (format H) e then count_skipped c else c) w)
      as (c' & evs & -> & Hout & Heq).
    exists c', evs. split_and!; [reflexivity | exact Hout |].
    intros Hc. apply Heq. destruct (skipped_by_type (format H) e); exact Hc.
Qed.


(** In dry-run mode the loop does not look at [make_backup]. *)
Lemma process_entries_dry_any_backup (dt : string) (r b1 b2 : bool) es :
  ∀ c w,
    process_entries H dt (Options r true b1) es c w
    = process_entries H dt (Options r true b2) es c w.
Proof.
  induction es as [| e rest IH]; intros c w; [reflexivity |].
  rewrite !process_entries_cons.
  change (process_entry H dt (Options r true b1) e c w)
    with (process_entry H dt (Options r true b2) e c w).
  destruct (process_entry H dt (Options r true b2) e c w) as [[c' | x] w'];
    [apply IH | reflexivity].
Qed.

(** *** [main] *)


Lemma parse_options_inr (opts : list string) :
  ∀ o o', parse_options opts o = inr o' →
    Forall (λ opt, known_option opt = true) opts.
Proof.
  induction opts as [| a rest IH]; intros o o' Hparse; [constructor |].
  cbn [parse_options] in Hparse.
  assert (Hknown : known_option a = true).
  { unfold known_option.
    destruct (a =? "--recursive"); [reflexivity |].
    destruct (a =? "--dry-run"); [reflexivity |].
    destruct (a =? "--no-backup"); [reflexivity | discriminate]. }
  constructor; [exact Hknown |].
  destruct (a =? "--recursive"); [eapply IH; exact Hparse |].
  destruct (a =? "--dry-run"); [eapply IH; exact Hparse |].
  destruct (a =? "--no-backup"); [eapply IH; exact Hparse | discriminate].
Qed.

Lemma known_options_exclusive (opts : list string) :
  Forall (λ opt, known_option opt = true) opts →
  ¬ Exists (λ opt, known_option opt = false) opts.
Proof.
  intros Hall Hex. apply Exists_exists in Hex as (opt & Hin & Hunknown).
  rewrite Forall_forall in Hall. rewrite (Hall opt Hin) in Hunknown.
  discriminate.
Qed.

Lemma root_check (m : gmap string node) (root : string) :
  negb (fs_exists_ec H m root) || negb (fs_is_directory_ec H m root) = false
  ↔ root_is_directory H m root.
Proof.
  unfold fs_exists_ec, fs_is_directory_ec, root_is_directory.
  destruct (status_fault H root) as [msg |]; cbn.
  { split; [discriminate | intros [? _]; discriminate]. }
  destruct (m !! root) as [[bytes |] |] eqn:Hroot.
  - rewrite bool_decide_eq_true_2 by eauto. cbn.
    split; [discriminate | intros [_ ?]; discriminate].
  - rewrite bool_decide_eq_true_2 by eauto. cbn. split; auto.
  - rewrite bool_decide_eq_false_2 by (apply is_Some_None). cbn.
    split; [discriminate | intros [_ ?]; discriminate].
Qed.

(** *** The traversal *)

Lemma process_stream_cons (dt : string) (o : options) (slot : dir_slot)
    rest c w :
  process_stream H dt o (slot :: rest) c w
  = match slot (fs w) with
    | Throw x => (Throw x, w)
    | Ret None => process_stream H dt o rest c w
    | Ret (Some it) =>
        match item_regular it with
        | Throw x => (Throw x, w)
        | Ret regular =>
            match process_entry H dt o (Entry (item_path it) regular) c w with
            | (Ret c', w') => process_stream H dt o rest c' w'
            | (Throw x, w') => (Throw x, w')
            end
        end
    end.
Proof.
  cbn [process_stream]. rewrite bind_run. cbn [get_fs]. rewrite bind_run.
  unfold lift_result. destruct (slot (fs w)) as [[it |] | x]; try reflexivity.
  unfold process_item. rewrite !bind_run. unfold lift_result.
  destruct (item_regular it); reflexivity.
Qed.

(** The loop over a stream is the loop over the entries that the stream
    yields, and it ends with the exception that ends the traversal, if
    there is one, after these entries were processed. *)
Lemma process_stream_traversal (dt : string) (o : options) slots :
  ∀ c w es fault,
    traversal H dt o slots c w = (es, fault) →
    ∃ c' w',
      process_entries H dt o es c w = (Ret c', w')
      ∧ process_stream H dt o slots c w
        = (match fault with None => Ret c' | Some x => Throw x end, w').
Proof.
  induction slots as [| slot rest IH]; intros c w es fault Htr.
  { injection Htr as <- <-. exists c, w. split; reflexivity. }
  rewrite process_stream_cons. cbn [traversal] in Htr.
  destruct (slot (fs w)) as [[it |] | x].
  - destruct (item_regular it) as [regular | x].
    + destruct (process_entries_shape dt o [Entry (item_path it) regular] c w)
        as (c1 & w1 & evs & Hone & _).
      rewrite process_entries_cons in Hone.
      destruct (process_entry H dt o (Entry (item_path it) regular) c w)
        as [[c2 | x] w2] eqn:Hentry; [| discriminate Hone].
      destruct (traversal H dt o rest c2 w2) as [es' fault'] eqn:Hrest.
      injection Htr as <- <-.
      destruct (IH c2 w2 es' fault' Hrest) as (c' & w' & Hlist & Hstream).
      exists c', w'. rewrite process_entries_cons, Hentry.
      split; assumption.
    + injection Htr as <- <-. exists c, w. split; reflexivity.
  - apply IH. exact Htr.
  - injection Htr as <- <-. exists c, w. split; reflexivity.
Qed.

Lemma traversal_length (dt : string) (o : options) slots :
  ∀ c w es fault,
    traversal H dt o slots c w = (es, fault) →
    (length es ≤ length slots)%nat.
Proof.
  induction slots as [| slot rest IH]; intros c w es fault Htr;
    cbn [traversal] in Htr.
  { injection Htr as <- <-. reflexivity. }
  destruct (slot (fs w)) as [[it |] | x].
  - destruct (item_regular it) as [regular | x].
    + destruct (process_entry H dt o (Entry (item_path it) regular) c w)
        as [r w2].
      destruct (traversal H dt o rest _ w2) as [es' fault'] eqn:Hrest.
      injection Htr as <- <-. apply IH in Hrest. cbn [length]. lia.
    + injection Htr as <- <-. cbn [length]. lia.
  - apply IH in Htr. cbn [length]. lia.
  - injection Htr as <- <-. cbn [length]. lia.
Qed.

(** A stream made from a listing yields the listing. *)
Lemma traversal_snapshot (dt : string) (o : options) es :
  ∀ c w, traversal H dt o (snapshot es) c w = (es, None).
Proof.
  induction es as [| e rest IH]; intros c w; [reflexivity |].
  unfold snapshot. rewrite fmap_cons. cbn [traversal yields item_regular
    item_path].
  destruct e as [p regular]. cbn [path is_regular_file].
  destruct (process_entry H dt o (Entry p regular) c w) as [r w2].
  fold (snapshot rest). rewrite IH. reflexivity.
Qed.

Lemma process_stream_snapshot (dt : string) (o : options) es c w :
  process_stream H dt o (snapshot es) c w = process_entries H dt o es c w.
Proof.
  destruct (process_stream_traversal dt o (snapshot es) c w es None
              (traversal_snapshot dt o es c w))
    as (c' & w' & -> & ->).
  reflexivity.
Qed.

(** In dry-run mode the traversal only prints, however it ends. *)
Lemma process_stream_dry (dt : string) (r b : bool) slots c w :
  ∃ res evs,
    process_stream H dt (Options r true b) slots c w
    = (res, World (fs w) (trace w ++ evs))
    ∧ Forall (λ e, is_stdout e = true) evs
    ∧ (ok c = total c → ∀ c', res = Ret c' → ok c' = total c').
Proof.
  destruct (traversal H dt (Options r true b) slots c w) as [es fault] eqn:Htr.
  destruct (process_stream_traversal _ _ slots c w es fault Htr)
    as (c1 & w1 & Hlist & ->).
  destruct (process_entries_dry dt r b es c w) as (c2 & evs & Hdry & Hout & Heq).
  rewrite Hdry in Hlist. injection Hlist as <- <-.
  eexists _, evs. split; [reflexivity |]. split; [exact Hout |].
  intros Hc c' Hres. destruct fault; [discriminate Hres |].
  injection Hres as <-. apply Heq, Hc.
Qed.

(** In dry-run mode the traversal does not look at [make_backup]. *)
Lemma process_stream_dry_any_backup (dt : string) (r b1 b2 : bool) slots :
  ∀ c w,
    process_stream H dt (Options r true b1) slots c w
    = process_stream H dt (Options r true b2) slots c w.
Proof.
  induction slots as [| slot rest IH]; intros c w; [reflexivity |].
  rewrite !process_stream_cons.
  destruct (slot (fs w)) as [[it |] | x]; [| apply IH | reflexivity].
  destruct (item_regular it) as [regular | x]; [| reflexivity].
  change (process_entry H dt (Options r true b1) (Entry (item_path it) regular)
            c w)
    with (process_entry H dt (Options r true b2) (Entry (item_path it) regular)
            c w).
  destruct (process_entry H dt (Options r true b2) _ c w) as [[c' | x] w'];
    [apply IH | reflexivity].
Qed.

Lemma run_batch_unfold (folder dt : string) (o : options) w :
  run_batch H folder dt o w
  = match (if recursive o then recursive_directory_iterator H (fs w) folder
           else directory_iterator H (fs w) folder) with
    | Ret slots => process_stream H dt o slots (Counters 0 0 0) w
    | Throw x => (Throw x, w)
    end.
Proof.
  unfold run_batch. rewrite bind_run. cbn [get_fs]. rewrite bind_run.
  unfold lift_result.
  destruct (if recursive o then _ else _); reflexivity.
Qed.

(** The batch is the loop over the entries of its traversal; an exception
    of the traversal leaves it, after these entries. *)
Lemma run_batch_traversal (folder dt : string) (o : options) w es fault :
  batch_traversal H folder dt o w = (es, fault) →
  ∃ c w1,
    process_entries H dt o es (Counters 0 0 0) w = (Ret c, w1)
    ∧ run_batch H folder dt o w
      = (match fault with None => Ret c | Some x => Throw x end, w1).
Proof.
  unfold batch_traversal. rewrite run_batch_unfold.
  destruct (if recursive o then _ else _) as [slots | x].
  - apply process_stream_traversal.
  - intros [= <- <-]. eexists _, _. split; reflexivity.
Qed.

Lemma main_too_few (argv : list string) w :
  (length argv < 3)%nat →
  main H argv w = (Ret 2%Z, World (fs w) (trace w ++ [Stderr usage_text])).
Proof.
  intros Hlen. unfold main.
  rewrite (proj2 (Nat.ltb_lt _ _) Hlen). reflexivity.
Qed.

Lemma main_unknown_option (argv : list string) (opt : string) w :
  (3 ≤ length argv)%nat →
  parse_options (drop 3 argv) default_options = inl opt →
  main H argv w
  = (Ret 2%Z,
     World (fs w) (trace w ++ [Stderr ("Unknown option: " +:+ opt +:+ nl);
                               Stderr usage_text])).
Proof.
  intros Hlen Hparse. unfold main.
  rewrite (proj2 (Nat.ltb_ge _ _) Hlen), Hparse.
  apply wp_eq. unfold PrintUsage. wp_pure. trace_norm. reflexivity.
Qed.

Lemma main_invalid_datetime (argv : list string) (o : options) w :
  (3 ≤ length argv)%nat →
  parse_options (drop 3 argv) default_options = inr o →
  IsValidExifDateTime (nth 2 argv "") = false →
  ∃ line, main H argv w = (Ret 2%Z, World (fs w) (trace w ++ [Stderr line])).
Proof.
  intros Hlen Hparse Hdt. unfold main.
  rewrite (proj2 (Nat.ltb_ge _ _) Hlen), Hparse, Hdt.
  eexists. reflexivity.
Qed.

Lemma main_bad_root (argv : list string) (o : options) w :
  (3 ≤ length argv)%nat →
  parse_options (drop 3 argv) default_options = inr o →
  IsValidExifDateTime (nth 2 argv "") = true →
  ¬ root_is_directory H (fs w) (nth 1 argv "") →
  ∃ line, main H argv w = (Ret 2%Z, World (fs w) (trace w ++ [Stderr line])).
Proof.
  intros Hlen Hparse Hdt Hroot. unfold main.
  rewrite (proj2 (Nat.ltb_ge _ _) Hlen), Hparse, Hdt. cbn [negb].
  rewrite bind_run. cbn [get_fs].
  destruct (negb (fs_exists_ec H (fs w) (nth 1 argv ""))
            || negb (fs_is_directory_ec H (fs w) (nth 1 argv ""))) eqn:Hcheck.
  - eexists. reflexivity.
  - apply root_check in Hcheck. contradiction.
Qed.

Lemma main_runs (argv : list string) (o : options) w c w1 :
  (3 ≤ length argv)%nat →
  parse_options (drop 3 argv) default_options = inr o →
  IsValidExifDateTime (nth 2 argv "") = true →
  root_is_directory H (fs w) (nth 1 argv "") →
  run_batch H (nth 1 argv "") (nth 2 argv "") o w = (Ret c, w1) →
  main H argv w
  = (Ret (exit_status c),
     World (fs w1) (trace w1 ++ [Stdout (summary_line c)])).
Proof.
  intros Hlen Hparse Hdt Hroot Hrun. unfold main.
  rewrite (proj2 (Nat.ltb_ge _ _) Hlen), Hparse, Hdt. cbn [negb].
  rewrite bind_run. cbn [get_fs].
  rewrite (proj2 (root_check _ _) Hroot).
  rewrite bind_run, Hrun. reflexivity.
Qed.

(** An exception of the traversal leaves [main]: no summary line, no exit
    status. *)
Lemma main_aborts (argv : list string) (o : options) w x w1 :
  (3 ≤ length argv)%nat →
  parse_options (drop 3 argv) default_options = inr o →
  IsValidExifDateTime (nth 2 argv "") = true →
  root_is_directory H (fs w) (nth 1 argv "") →
  run_batch H (nth 1 argv "") (nth 2 argv "") o w = (Throw x, w1) →
  main H argv w = (Throw x, w1).
Proof.
  intros Hlen Hparse Hdt Hroot Hrun. unfold main.
  rewrite (proj2 (Nat.ltb_ge _ _) Hlen), Hparse, Hdt. cbn [negb].
  rewrite bind_run. cbn [get_fs].
  rewrite (proj2 (root_check _ _) Hroot).
  rewrite bind_run, Hrun. reflexivity.
Qed.


End Proofs.

(* ===================================================================== *)
(** ** The claims *)
(* ===================================================================== *)

(** C3.  The timestamp validator accepts a string exactly when it has the
    lexical pattern: 19 characters, a colon at indices 4, 7, 13 and 16, a
    space at index 10 and a decimal digit at every other index.  Nothing
    of the calendar is checked: month 13, day 45, hour 25 pass. *)
Theorem validator_accepts_exactly_the_pattern :
  (∀ s : string, IsValidExifDateTime s = true ↔ exif_datetime_shape s)
  ∧ IsValidExifDateTime "2026:13:45 25:61:99" = true.
Proof.
  split; [exact IsValidExifDateTime_shape | reflexivity].
Qed.

Section Claims.
Context (H : Host) {X : Exiv2}.

(** C1.  With [make_backup] on and [dry_run] off, a file whose backup path
    already exists fails: [UpdateExifInPlace] returns [false] after the
    existence check and one line on [std::cerr], nothing is opened, copied
    or handed to the codec, and the file system (the file's bytes with it)
    is the one it started from.  In the loop the file counts in [total] and
    not in [ok]. *)
Theorem existing_backup_stops_the_file (file dt : string) (w : world) :
  is_Some (fs w !! backup_path_of file) →
  ∃ line : string,
    UpdateExifInPlace H file dt false true w
    = (Ret false,
       World (fs w)
             (trace w ++ [FsExists (backup_path_of file); Stderr line]))
    ∧ ∀ (r : bool) (e : directory_entry) (c : counters),
        path e = file → candidate (format H) e = true →
        process_entry H dt (Options r false true) e c w
        = (Ret (Counters (size_t_incr (total c)) (ok c) (skipped c)),
           World (fs w)
                 (trace w ++ [FsExists (backup_path_of file); Stderr line])).
Proof.
  intros Hexists.
  assert (Hupdate : ∃ line : string,
    UpdateExifInPlace H file dt false true w
    = (Ret false,
       World (fs w)
             (trace w ++ [FsExists (backup_path_of file); Stderr line]))).
  { destruct (status_fault H (backup_path_of file)) as [msg |] eqn:Hfault.
    - exists (caught_line file (std_exception msg)).
      rewrite (UpdateExifInPlace_backup_stop H file dt w _ _
                 (ensure_backup_status_fault H file msg w Hfault))
        by discriminate.
      cbn [fs trace]. rewrite <- app_assoc. reflexivity.
    - exists (backup_exists_line file).
      rewrite (UpdateExifInPlace_backup_stop H file dt w _ _
                 (ensure_backup_exists H file w Hfault Hexists))
        by discriminate.
      reflexivity. }
  destruct Hupdate as [line Hupdate]. exists line.
  split; [exact Hupdate |].
  intros r e c <- Hcand.
  apply (process_entry_candidate H dt (Options r false true) e c w false _
           Hcand Hupdate).
Qed.







(** C9.  A path with the backup suffix never passes the type filter: its
    extension is [.bak] (empty, when the suffix was appended to a path
    without a filename).  So an entry with such a path is never a
    candidate: the loop leaves the world as it is for it and counts it
    neither in [total] nor in [ok]. *)
Theorem backup_files_are_never_candidates (file : string) :
  IsJpegPath (format H) (backup_path_of file) = false
  ∧ (filename (format H) file ≠ ""
     → extension (format H) (backup_path_of file) = ".bak")
  ∧ ∀ (dt : string) (o : options) (regular : bool) (c : counters) (w : world),
      ∃ c',
        process_entry H dt o (Entry (backup_path_of file) regular) c w
        = (Ret c', w)
        ∧ total c' = total c ∧ ok c' = ok c.
Proof.
  split_and!.
  - apply IsJpegPath_backup.
  - intros Hname. rewrite extension_backup.
    destruct (filename (format H) file); [contradiction | reflexivity].
  - intros dt o regular c w.
    assert (Hcand : candidate (format H) (Entry (backup_path_of file) regular)
                    = false).
    { unfold candidate. cbn [path is_regular_file].
      rewrite IsJpegPath_backup. apply andb_false_r. }
    rewrite (process_entry_other H dt o _ c w Hcand).
    eexists. split; [reflexivity |].
    destruct (skipped_by_type _ _); split; reflexivity.
Qed.

(** C10.  With [dry_run] on, [make_backup] is not looked at: for every
    file, [UpdateExifInPlace] with the flag on and with the flag off is the
    same computation, it returns [true] and leaves the file system as it
    was; and so are the loop and the batch. *)
Theorem dry_run_ignores_make_backup (dt : string) :
  (∀ (file : string) (w : world),
     UpdateExifInPlace H file dt true true w
     = UpdateExifInPlace H file dt true false w
     ∧ (UpdateExifInPlace H file dt true true w).1 = Ret true
     ∧ fs (UpdateExifInPlace H file dt true true w).2 = fs w)
  ∧ (∀ (r : bool) (es : list directory_entry) (c : counters) (w : world),
       process_entries H dt (Options r true true) es c w
       = process_entries H dt (Options r true false) es c w)
  ∧ (∀ (r : bool) (folder : string) (w : world),
       run_batch H folder dt (Options r true true) w
       = run_batch H folder dt (Options r true false) w).
Proof.
  split_and!.
  - intros file w. rewrite !UpdateExifInPlace_dry. auto.
  - intros r es c w. apply process_entries_dry_any_backup.
  - intros r folder w. rewrite !run_batch_unfold. cbn [recursive].
    destruct (if r then _ else _);
      [apply process_stream_dry_any_backup | reflexivity].
Qed.

End Claims.

(* ===================================================================== *)
(** ** The claims on the concrete directory *)
(* ===================================================================== *)

(** C1 on [photos/a.jpg] when [photos/a.jpg.bak] is already there. *)
Lemma existing_backup_stops_the_file_witness :
  is_Some (<["photos/a.jpg.bak" := File []]> photos_fs
             !! backup_path_of "photos/a.jpg")
  ∧ ∃ line : string,
      @UpdateExifInPlace quiet_host stamping_codec "photos/a.jpg"
        "2026:02:25 18:30:00" false true
        (World (<["photos/a.jpg.bak" := File []]> photos_fs) [])
      = (Ret false,
         World (<["photos/a.jpg.bak" := File []]> photos_fs)
               [FsExists (backup_path_of "photos/a.jpg"); Stderr line]).
Proof.
  assert (Hpre : is_Some (<["photos/a.jpg.bak" := File []]> photos_fs
                            !! backup_path_of "photos/a.jpg"))
    by (vm_compute; eauto).
  split; [exact Hpre |].
  destruct (@existing_backup_stops_the_file quiet_host stamping_codec
              "photos/a.jpg" "2026:02:25 18:30:00"
              (World (<["photos/a.jpg.bak" := File []]> photos_fs) []) Hpre)
    as [line [Hupdate _]].
  exists line. exact Hupdate.
Defined.






(** C7.  The test of [out.good()] comes before the stream is flushed and
    closed.  On a full disk the stream takes the two bytes of
    [photos/a.jpg] into its buffer and none reaches the backup file: the
    backup step succeeds all the same, the codec rewrites the image, and
    the bytes the file had are in neither file. *)
Theorem backup_check_misses_unwritten_bytes :
  photos_fs !! "photos/a.jpg" = Some (File [x0a; x01]%byte)
  ∧ @ensure_backup full_disk_host "photos/a.jpg" (World photos_fs [])
    = (Ret true,
       World (<["photos/a.jpg.bak" := File []]> photos_fs)
             [FsExists "photos/a.jpg.bak"; OpenIn "photos/a.jpg";
              OpenOut "photos/a.jpg.bak"])
  ∧ let run :=
      @UpdateExifInPlace full_disk_host stamping_codec "photos/a.jpg"
        "2026:02:25 18:30:00" false true (World photos_fs []) in
    run.1 = Ret true
    ∧ fs run.2 !! "photos/a.jpg.bak" = Some (File [])
    ∧ fs run.2 !! "photos/a.jpg" = Some (File [xff; x0a; x01]%byte)
    ∧ image_opens (trace run.2) = ["photos/a.jpg"].
Proof.
  split; [vm_compute; reflexivity |].
  split; [rewrite ensure_backup_fresh by reflexivity; reflexivity |].
  vm_compute. repeat split.
Qed.

(** The two scenarios of the specification, and two more. *)

Example IsValidExifDateTime_accepts :
  IsValidExifDateTime "2026:02:25 18:30:00" = true.
Proof. reflexivity. Qed.

Example IsValidExifDateTime_rejects :
  IsValidExifDateTime "2026-02-25 18:30:00" = false
  ∧ IsValidExifDateTime "2026:02:25 18:30:0" = false
  ∧ IsValidExifDateTime "2026:02:25T18:30:00" = false
  ∧ IsValidExifDateTime "2o26:02:25 18:30:00" = false.
Proof. repeat split. Qed.

Example IsJpegPath_examples :
  IsJpegPath posix "photos/b.JPEG" = true
  ∧ IsJpegPath posix "photos/a.jpg.bak" = false
  ∧ IsJpegPath posix "photos/.jpg" = false
  ∧ IsJpegPath posix "dir.jpg/notes" = false
  ∧ IsJpegPath windows "C:.jpg" = false
  ∧ IsJpegPath windows "C:\photos\a.JpG" = true.
Proof. repeat split. Qed.

Example parse_options_dry_run :
  parse_options ["--dry-run"; "--no-backup"] default_options
  = inr (Options false true false).
Proof. reflexivity. Qed.

(** No flags: both images are backed up and updated, the exit status
    is 0. *)
Example run_with_backups :
  let '(r, w') :=
    @main quiet_host stamping_codec
      ["exif_batch_set"; "photos"; "2026:02:25 18:30:00"]
      (World photos_fs []) in
  r = Ret 0%Z
  ∧ fs w' !! "photos/a.jpg.bak" = photos_fs !! "photos/a.jpg"
  ∧ fs w' !! "photos/b.JPEG.bak" = photos_fs !! "photos/b.JPEG"
  ∧ fs w' !! "photos/a.jpg" = Some (File [xff; x0a; x01]%byte)
  ∧ fs w' !! "photos/notes.txt" = photos_fs !! "photos/notes.txt"
  ∧ image_opens (trace w') = ["photos/a.jpg"; "photos/b.JPEG"].
Proof. vm_compute. repeat split. Qed.

(** [a.jpg.bak] is already there: [a.jpg] fails and keeps its bytes,
    [b.JPEG] is updated, the exit status is 1. *)
Example run_with_existing_backup :
  let '(r, w') :=
    @main quiet_host stamping_codec
      ["exif_batch_set"; "photos"; "2026:02:25 18:30:00"]
      (World (<["photos/a.jpg.bak" := File []]> photos_fs) []) in
  r = Ret 1%Z
  ∧ fs w' !! "photos/a.jpg" = photos_fs !! "photos/a.jpg"
  ∧ fs w' !! "photos/a.jpg.bak" = Some (File [])
  ∧ fs w' !! "photos/b.JPEG" = Some (File [xff; x0b; x02]%byte)
  ∧ image_opens (trace w') = ["photos/b.JPEG"].
Proof. vm_compute. repeat split. Qed.

(** A codec that rejects every image: both candidates are attempted, both
    fail, the exit status is 1. *)
Example run_with_failing_codec :
  let '(r, w') :=
    @main quiet_host failing_codec
      ["exif_batch_set"; "photos"; "2026:02:25 18:30:00"; "--no-backup"]
      (World photos_fs []) in
  r = Ret 1%Z
  ∧ fs w' = photos_fs
  ∧ image_opens (trace w') = ["photos/a.jpg"; "photos/b.JPEG"]
  ∧ console_lines (trace w') = 3%nat.
Proof. vm_compute. repeat split. Qed.

(** The backup of an empty file fails: the stream inserter sets [failbit]
    when it inserts no character, although nothing went wrong with the
    writing. *)
Example backup_of_an_empty_file :
  @ensure_backup quiet_host "photos/notes.txt" (World photos_fs [])
  = (Ret false,
     World (<["photos/notes.txt.bak" := File []]> photos_fs)
           [FsExists "photos/notes.txt.bak"; OpenIn "photos/notes.txt";
            OpenOut "photos/notes.txt.bak";
            Stderr (backup_failed_line "photos/notes.txt"
                      "failed while writing backup")]).
Proof.
  rewrite ensure_backup_fresh by reflexivity. reflexivity.
Qed.

(* ===================================================================== *)
(** ** Further properties: the pure helpers *)
(* ===================================================================== *)

(** *** Letter case *)

Lemma tolower_idempotent (c : ascii) : tolower (tolower c) = tolower c.
Proof. destruct c as [[] [] [] [] [] [] [] []]; reflexivity. Qed.

Lemma tolower_not_upper (c : ascii) : is_upper (tolower c) = false.
Proof. destruct c as [[] [] [] [] [] [] [] []]; reflexivity. Qed.

Lemma tolower_fixes (c : ascii) : is_upper c = false → tolower c = c.
Proof. unfold tolower, is_upper. intros ->. reflexivity. Qed.

Lemma tolower_slash (c : ascii) : (tolower c =? "/")%char = (c =? "/")%char.
Proof. destruct c as [[] [] [] [] [] [] [] []]; reflexivity. Qed.

Lemma tolower_backslash (c : ascii) :
  (tolower c =? backslash)%char = (c =? backslash)%char.
Proof. destruct c as [[] [] [] [] [] [] [] []]; reflexivity. Qed.

Lemma tolower_period (c : ascii) : (tolower c =? ".")%char = (c =? ".")%char.
Proof. destruct c as [[] [] [] [] [] [] [] []]; reflexivity. Qed.

Lemma tolower_colon (c : ascii) : (tolower c =? ":")%char = (c =? ":")%char.
Proof. destruct c as [[] [] [] [] [] [] [] []]; reflexivity. Qed.

Lemma tolower_alpha (c : ascii) : is_alpha (tolower c) = is_alpha c.
Proof. destruct c as [[] [] [] [] [] [] [] []]; reflexivity. Qed.

Lemma ToLower_idempotent (s : string) : ToLower (ToLower s) = ToLower s.
Proof.
  induction s as [| c r IH]; [reflexivity |].
  cbn [ToLower]. rewrite tolower_idempotent, IH. reflexivity.
Qed.

Lemma ToLower_length (s : string) :
  String.length (ToLower s) = String.length s.
Proof.
  induction s as [| c r IH]; [reflexivity |].
  cbn [ToLower String.length]. rewrite IH. reflexivity.
Qed.

Lemma ToLower_get (s : string) :
  ∀ i, String.get i (ToLower s) = tolower <$> String.get i s.
Proof.
  induction s as [| c r IH]; intros i; [reflexivity |].
  destruct i as [| i]; [reflexivity |]. cbn [ToLower String.get]. apply IH.
Qed.

Lemma is_separator_tolower fmt (c : ascii) :
  is_separator fmt (tolower c) = is_separator fmt c.
Proof.
  unfold is_separator. rewrite tolower_slash.
  destruct fmt; [reflexivity |]. rewrite tolower_backslash. reflexivity.
Qed.

Lemma has_separator_ToLower fmt (s : string) :
  has_separator fmt (ToLower s) = has_separator fmt s.
Proof.
  induction s as [| c r IH]; [reflexivity |].
  cbn [ToLower has_separator]. rewrite is_separator_tolower, IH. reflexivity.
Qed.

Lemma last_element_ToLower fmt (s : string) :
  last_element fmt (ToLower s) = ToLower (last_element fmt s).
Proof.
  induction s as [| c r IH]; [reflexivity |].
  cbn [ToLower last_element].
  rewrite has_separator_ToLower, is_separator_tolower, IH.
  destruct (has_separator fmt r); [reflexivity |].
  destruct (is_separator fmt c); reflexivity.
Qed.

Lemma strip_root_name_ToLower fmt (s : string) :
  strip_root_name fmt (ToLower s) = ToLower (strip_root_name fmt s).
Proof.
  destruct fmt; [reflexivity |].
  destruct s as [| d [| c r]]; try reflexivity.
  cbn [ToLower strip_root_name]. rewrite tolower_alpha, tolower_colon.
  destruct (is_alpha d && (c =? ":")%char); reflexivity.
Qed.

Lemma rfind_period_ToLower (s : string) :
  rfind "." (ToLower s) = rfind "." s.
Proof.
  induction s as [| c r IH]; [reflexivity |].
  cbn [ToLower rfind]. rewrite IH, tolower_period. reflexivity.
Qed.

Lemma substr_from_ToLower (s : string) :
  ∀ n, substr_from n (ToLower s) = ToLower (substr_from n s).
Proof.
  induction s as [| c r IH]; intros [| n]; try reflexivity.
  cbn [ToLower substr_from]. apply IH.
Qed.

Lemma eqb_period_ToLower (s : string) : (ToLower s =? ".") = (s =? ".").
Proof.
  destruct s as [| c [| c' r]]; try reflexivity.
  - cbn. rewrite tolower_period. reflexivity.
  - cbn. rewrite tolower_period. destruct (c =? ".")%char; reflexivity.
Qed.

Lemma eqb_two_periods_ToLower (s : string) : (ToLower s =? "..") = (s =? "..").
Proof.
  destruct s as [| c [| c' [| c'' r]]]; try reflexivity; cbn;
    rewrite ?tolower_period;
    destruct (c =? ".")%char; try reflexivity;
    destruct (c' =? ".")%char; reflexivity.
Qed.

Lemma extension_ToLower fmt (p : string) :
  extension fmt (ToLower p) = ToLower (extension fmt p).
Proof.
  unfold extension, filename.
  rewrite strip_root_name_ToLower, last_element_ToLower.
  set (f := last_element fmt (strip_root_name fmt p)).
  rewrite eqb_period_ToLower, eqb_two_periods_ToLower, rfind_period_ToLower.
  destruct ((f =? ".") || (f =? "..")); [reflexivity |].
  destruct (rfind "." f) as [[| n] |]; try reflexivity.
  apply substr_from_ToLower.
Qed.

Lemma IsJpegPath_ToLower fmt (p : string) :
  IsJpegPath fmt (ToLower p) = IsJpegPath fmt p.
Proof.
  unfold IsJpegPath. rewrite extension_ToLower, ToLower_idempotent.
  reflexivity.
Qed.

(** X1. [ToLower] keeps the length of the string and is idempotent, and it
    acts on each character by itself: the result holds no upper-case letter
    of the C locale, a character that is not an upper-case letter is kept,
    and an upper-case letter is moved 32 code points up, to its lower-case
    form. *)
Theorem ToLower_folds_case_once (s : string) :
  String.length (ToLower s) = String.length s
  ∧ ToLower (ToLower s) = ToLower s
  ∧ ∀ (i : nat) (c : ascii), String.get i s = Some c →
      ∃ c', String.get i (ToLower s) = Some c'
            ∧ is_upper c' = false
            ∧ (is_upper c = false → c' = c)
            ∧ (is_upper c = true → nat_of_ascii c' = (nat_of_ascii c + 32)%nat).
Proof.
  split_and!; [apply ToLower_length | apply ToLower_idempotent |].
  intros i c Hget. exists (tolower c).
  rewrite ToLower_get, Hget.
  split_and!; [reflexivity | apply tolower_not_upper | apply tolower_fixes |].
  clear. destruct c as [[] [] [] [] [] [] [] []]; try discriminate; reflexivity.
Qed.

(** X2. The type filter ignores letter case in the whole path: two paths
    with the same lower-case form are both JPEG paths or both not. *)
Theorem type_filter_ignores_letter_case (fmt : path_format) (p q : string) :
  ToLower p = ToLower q → IsJpegPath fmt p = IsJpegPath fmt q.
Proof.
  intros Hsame.
  rewrite <- (IsJpegPath_ToLower fmt p), <- (IsJpegPath_ToLower fmt q), Hsame.
  reflexivity.
Qed.

(** *** The filename decides *)

Lemma last_element_after_slash fmt (d : string) :
  last_element fmt (d +:+ "/") = "".
Proof.
  induction d as [| c r IH].
  - destruct fmt; reflexivity.
  - change (String c r +:+ "/") with (String c (r +:+ "/")).
    cbn [last_element]. rewrite has_separator_app.
    replace (has_separator fmt "/") with true by (destruct fmt; reflexivity).
    rewrite orb_true_r. exact IH.
Qed.

Lemma append_assoc (a b c : string) : (a +:+ b) +:+ c = a +:+ (b +:+ c).
Proof.
  induction a as [| x r IH]; [reflexivity |].
  change ((String x r +:+ b) +:+ c) with (String x ((r +:+ b) +:+ c)).
  rewrite IH. reflexivity.
Qed.

Lemma strip_root_name_keeps_tail fmt (d name : string) :
  ∃ d', strip_root_name fmt (d +:+ "/" +:+ name) = d' +:+ "/" +:+ name.
Proof.
  destruct fmt; [exists d; reflexivity |].
  destruct d as [| x [| y r]].
  - exists "". change ("" +:+ "/" +:+ name) with (String "/" name).
    destruct name; reflexivity.
  - exists (String x "").
    change (String x "" +:+ "/" +:+ name) with (String x (String "/" name)).
    unfold strip_root_name.
    change ("/" =? ":")%char with false. rewrite andb_false_r. reflexivity.
  - change (String x (String y r) +:+ "/" +:+ name)
      with (String x (String y (r +:+ "/" +:+ name))).
    cbn [strip_root_name].
    destruct (is_alpha x && (y =? ":")%char);
      [exists r | exists (String x (String y r))]; reflexivity.
Qed.

Lemma filename_in_directory fmt (d name : string) :
  has_separator fmt name = false →
  filename fmt (d +:+ "/" +:+ name) = name.
Proof.
  intros Hname. unfold filename.
  destruct (strip_root_name_keeps_tail fmt d name) as [d' ->].
  rewrite <- append_assoc, (last_element_app fmt _ name Hname).
  rewrite last_element_after_slash. reflexivity.
Qed.

(** X3. The type filter looks at the last path element only: a file name
    without a separator is judged the same in every directory, and a name
    without a period, or whose only period is its first character, is never
    a JPEG path. *)
Theorem type_filter_looks_at_the_filename (fmt : path_format)
    (d1 d2 name : string) :
  has_separator fmt name = false →
  IsJpegPath fmt (d1 +:+ "/" +:+ name) = IsJpegPath fmt (d2 +:+ "/" +:+ name)
  ∧ (rfind "." name = None ∨ rfind "." name = Some 0%nat →
     IsJpegPath fmt (d1 +:+ "/" +:+ name) = false).
Proof.
  intros Hname. unfold IsJpegPath, extension.
  rewrite !(filename_in_directory fmt _ name Hname).
  split; [reflexivity |].
  intros [-> | ->]; destruct ((name =? ".") || (name =? "..")); reflexivity.
Qed.

(** *** The option loop *)

Lemma parse_options_flags (opts : list string) :
  ∀ o o', parse_options opts o = inr o' →
    recursive o' = recursive o || bool_decide ("--recursive" ∈ opts)
    ∧ dry_run o' = dry_run o || bool_decide ("--dry-run" ∈ opts)
    ∧ make_backup o' = make_backup o && negb (bool_decide ("--no-backup" ∈ opts)).
Proof.
  induction opts as [| a rest IH]; intros o o' Hparse.
  { injection Hparse as <-.
    rewrite !bool_decide_eq_false_2 by (apply not_elem_of_nil).
    rewrite !orb_false_r, andb_true_r. auto. }
  cbn [parse_options] in Hparse.
  assert (Hmem : ∀ x : string,
    bool_decide (x ∈ a :: rest) = (a =? x) || bool_decide (x ∈ rest)).
  { intros x. destruct (String.eqb_spec a x) as [-> | Hne].
    - apply bool_decide_eq_true_2. left.
    - cbn [orb]. apply bool_decide_ext. rewrite elem_of_cons.
      split; [intros [E | ?]; [congruence | assumption] | auto]. }
  rewrite !Hmem.
  destruct (String.eqb_spec a "--recursive") as [-> | H1].
  { apply IH in Hparse as (-> & -> & ->). cbn. rewrite orb_true_r. auto. }
  destruct (String.eqb_spec a "--dry-run") as [-> | H2].
  { apply IH in Hparse as (-> & -> & ->). cbn. rewrite orb_true_r. auto. }
  destruct (String.eqb_spec a "--no-backup") as [-> | H3].
  { apply IH in Hparse as (-> & -> & ->). cbn. rewrite andb_false_r. auto. }
  discriminate.
Qed.

Lemma parse_options_all_known (opts : list string) :
  ∀ o, Forall (λ opt, known_option opt = true) opts →
    ∃ o', parse_options opts o = inr o'.
Proof.
  induction opts as [| a rest IH]; intros o Hall; [eexists; reflexivity |].
  apply Forall_cons in Hall as [Ha Hrest]. cbn [parse_options].
  unfold known_option in Ha.
  destruct (a =? "--recursive"); [apply IH, Hrest |].
  destruct (a =? "--dry-run"); [apply IH, Hrest |].
  destruct (a =? "--no-backup"); [apply IH, Hrest | discriminate].
Qed.

Lemma parse_options_first_unknown (opts : list string) :
  ∀ o opt, parse_options opts o = inl opt →
    ∃ before after,
      opts = (before ++ opt :: after)%list
      ∧ Forall (λ opt, known_option opt = true) before
      ∧ known_option opt = false.
Proof.
  induction opts as [| a rest IH]; intros o opt Hparse; [discriminate |].
  cbn [parse_options] in Hparse.
  assert (Hstep : ∀ o1, known_option a = true →
    parse_options rest o1 = inl opt →
    ∃ before after,
      a :: rest = (before ++ opt :: after)%list
      ∧ Forall (λ opt, known_option opt = true) before
      ∧ known_option opt = false).
  { intros o1 Ha Hrest.
    destruct (IH o1 opt Hrest) as (before & after & -> & Hknown & Hopt).
    exists (a :: before), after. split_and!; [reflexivity | | exact Hopt].
    constructor; assumption. }
  unfold known_option in Hstep |- *.
  destruct (a =? "--recursive") eqn:E1; [eapply Hstep; eauto |].
  destruct (a =? "--dry-run") eqn:E2; [eapply Hstep; eauto |].
  destruct (a =? "--no-backup") eqn:E3; [eapply Hstep; eauto |].
  injection Hparse as <-. exists [], rest.
  split_and!; [reflexivity | constructor |].
  rewrite E1, E2, E3. reflexivity.
Qed.

(** X4. The options are a set of flags: when every option is known, the
    parsed options say which flags occur, whatever their order and however
    often they are repeated; the option that is reported as unknown is the
    first unknown one; and one unknown option anywhere makes the parse
    fail. *)
Theorem options_are_a_set_of_flags (opts : list string) :
  (Forall (λ opt, known_option opt = true) opts →
   parse_options opts default_options
   = inr (Options (bool_decide ("--recursive" ∈ opts))
                  (bool_decide ("--dry-run" ∈ opts))
                  (negb (bool_decide ("--no-backup" ∈ opts)))))
  ∧ (∀ opt, parse_options opts default_options = inl opt →
       ∃ before after,
         opts = (before ++ opt :: after)%list
         ∧ Forall (λ opt, known_option opt = true) before
         ∧ known_option opt = false)
  ∧ (Exists (λ opt, known_option opt = false) opts →
     ∃ opt, parse_options opts default_options = inl opt).
Proof.
  split_and!.
  - intros Hall.
    destruct (parse_options_all_known opts default_options Hall) as [o Hparse].
    rewrite Hparse.
    destruct (parse_options_flags opts _ _ Hparse) as (Hr & Hd & Hb).
    destruct o as [r d b]. cbn in Hr, Hd, Hb. subst. reflexivity.
  - intros opt. apply parse_options_first_unknown.
  - intros Hex.
    destruct (parse_options opts default_options) as [opt | o] eqn:Hparse;
      [eauto |].
    apply parse_options_inr in Hparse.
    exfalso. eapply known_options_exclusive; eassumption.
Qed.

(* ===================================================================== *)
(** ** Further properties: the program *)
(* ===================================================================== *)

Section More.
Context (H : Host) {X : Exiv2}.

Lemma mutate_run (file dt : string) (w : world) :
  try_catch (write_timestamps file dt) (UpdateExifInPlace_catch file) w
  = let '(updated, left_on_disk, evs) := mutate_outcome file dt (fs w !! file) in
    (Ret updated,
     World (put_node file (File <$> left_on_disk) (fs w)) (trace w ++ evs)).
Proof.
  apply wp_eq.
  unfold write_timestamps, Image_open, Image_readMetadata, Image_writeMetadata,
    UpdateExifInPlace_catch, mutate_outcome, stamped.
  wp_pure.
  destruct (ImageFactory_open file (fs w !! file)) as [[|] | e]; wp_pure;
    [| trace_norm; reflexivity | destruct e; wp_pure; trace_norm; reflexivity].
  destruct (readMetadata file (fs w !! file)) as [exif | e]; wp_pure;
    [| destruct e; wp_pure; trace_norm; reflexivity].
  destruct (writeMetadata file (fs w !! file) _) as [[bytes |] [e |]];
    wp_pure; try destruct e; wp_pure; trace_norm; reflexivity.
Qed.

Lemma stamped_lookup (dt : string) (exif : ExifData) (key : string) :
  stamped dt exif !! key = if date_tag key then Some dt else exif !! key.
Proof.
  unfold stamped, date_tag.
  destruct (String.eqb_spec key "Exif.Image.DateTime") as [-> | H3].
  { rewrite lookup_insert_eq. reflexivity. }
  rewrite lookup_insert_ne by congruence.
  destruct (String.eqb_spec key "Exif.Photo.DateTimeDigitized") as [-> | H2].
  { rewrite lookup_insert_eq. reflexivity. }
  rewrite lookup_insert_ne by congruence.
  destruct (String.eqb_spec key "Exif.Photo.DateTimeOriginal") as [-> | H1].
  { rewrite lookup_insert_eq. reflexivity. }
  rewrite lookup_insert_ne by congruence. reflexivity.
Qed.

(** X8. When [ImageFactory::open] returns a null handle, the file fails
    with the open failed line; the metadata is neither read nor written and
    the file system is left as it was. *)
Theorem null_image_handle_fails_the_file (file dt : string) (w : world) :
  ImageFactory_open file (fs w !! file) = Ret false →
  UpdateExifInPlace H file dt false false w
  = (Ret false,
     World (fs w) (trace w ++ [ImageOpen file; Stderr (open_failed_line file)])).
Proof.
  intros Hnull. rewrite UpdateExifInPlace_no_backup, mutate_run.
  unfold mutate_outcome. rewrite Hnull. reflexivity.
Qed.

(** X9. When the codec opens, reads and writes without an exception, the
    file is updated: the events are open, read, write, then the OK line; the
    file holds what the codec left on disk; and the Exif data handed to
    [writeMetadata] is the data read with the three date tags set to the
    timestamp and every other tag left as read. *)
Theorem successful_update_stamps_three_tags (file dt : string) (w : world)
    (exif : ExifData) (left_on_disk : option (list byte)) :
  ImageFactory_open file (fs w !! file) = Ret true →
  readMetadata file (fs w !! file) = Ret exif →
  writeMetadata file (fs w !! file) (stamped dt exif) = (left_on_disk, None) →
  UpdateExifInPlace H file dt false false w
  = (Ret true,
     World (put_node file (File <$> left_on_disk) (fs w))
           (trace w ++ [ImageOpen file; ReadMetadata file; WriteMetadata file;
                        Stdout (ok_line file)]))
  ∧ ∀ key, stamped dt exif !! key
           = if date_tag key then Some dt else exif !! key.
Proof.
  intros Hopen Hread Hwrite. split; [| apply stamped_lookup].
  rewrite UpdateExifInPlace_no_backup, mutate_run.
  unfold mutate_outcome. rewrite Hopen, Hread, Hwrite. reflexivity.
Qed.

(** *** The backup copy *)

Lemma readable_lookup (m : gmap string node) (p : string) :
  readable H m p = node_readable H p (m !! p).
Proof. reflexivity. Qed.

Lemma file_bytes_lookup (m : gmap string node) (p : string) :
  file_bytes m p = node_bytes (m !! p).
Proof. reflexivity. Qed.

Lemma backup_kept_le (file : string) (m : gmap string node) :
  (backup_kept H file m ≤ backup_inserted H file m)%nat.
Proof. unfold backup_kept, kept_length, backup_inserted. lia. Qed.

Lemma backup_inserted_le (file : string) (m : gmap string node) :
  (backup_inserted H file m ≤ length (file_bytes m file))%nat.
Proof. unfold backup_inserted, inserted_length. lia. Qed.

Lemma take_backup_kept_all (file : string) (m : gmap string node) :
  take (backup_kept H file m) (file_bytes m file) = file_bytes m file
  ↔ backup_kept H file m = length (file_bytes m file).
Proof.
  pose proof (backup_kept_le file m). pose proof (backup_inserted_le file m).
  split.
  - intros Hall. apply (f_equal length) in Hall.
    rewrite length_take in Hall. lia.
  - intros ->. apply firstn_all.
Qed.

(** The backup step when the backup path is free, case by case. *)
Lemma ensure_backup_free (file : string) (w : world) :
  status_fault H (backup_path_of file) = None →
  fs w !! backup_path_of file = None →
  ensure_backup H file w
  = if readable H (fs w) file then
      if open_out_denied H (backup_path_of file) then
        (Ret false,
         World (fs w)
               (trace w ++ [FsExists (backup_path_of file); OpenIn file;
                            OpenOut (backup_path_of file);
                            Stderr (backup_failed_line file
                                      "failed to open destination for backup")]))
      else if (backup_inserted H file (fs w) =? 0)%nat then
        (Ret false,
         World (<[backup_path_of file := File []]> (fs w))
               (trace w ++ [FsExists (backup_path_of file); OpenIn file;
                            OpenOut (backup_path_of file);
                            Stderr (backup_failed_line file
                                      "failed while writing backup")]))
      else
        (Ret true,
         World (<[backup_path_of file
                  := File (take (backup_kept H file (fs w))
                             (file_bytes (fs w) file))]> (fs w))
               (trace w ++ [FsExists (backup_path_of file); OpenIn file;
                            OpenOut (backup_path_of file)]))
    else
      (Ret false,
       World (fs w)
             (trace w ++ [FsExists (backup_path_of file); OpenIn file;
                          Stderr (backup_failed_line file
                                    "failed to open source for backup")])).
Proof.
  intros Hfault Hfree. rewrite ensure_backup_fresh by assumption.
  unfold copy_outcome. cbv zeta.
  destruct (readable H (fs w) file); [| reflexivity].
  destruct (open_out_denied H (backup_path_of file)); [reflexivity |].
  destruct (Nat.eqb_spec (backup_inserted H file (fs w)) 0) as [Hzero | Hpos];
    cbn [negb]; [| reflexivity].
  pose proof (backup_kept_le file (fs w)) as Hle. rewrite Hzero in Hle.
  replace (backup_kept H file (fs w)) with 0%nat by lia.
  reflexivity.
Qed.

(** X6. An empty file cannot be backed up: with the backup step on, a file
    of zero bytes is reported as a failed backup although nothing went
    wrong, an empty backup file is left behind, and the codec is never
    called. *)
Theorem empty_file_cannot_be_backed_up (file dt : string) (w : world) :
  status_fault H (backup_path_of file) = None →
  fs w !! backup_path_of file = None →
  fs w !! file = Some (File []) →
  open_in_denied H file = false →
  open_out_denied H (backup_path_of file) = false →
  UpdateExifInPlace H file dt false true w
  = (Ret false,
     World (<[backup_path_of file := File []]> (fs w))
           (trace w ++ [FsExists (backup_path_of file); OpenIn file;
                        OpenOut (backup_path_of file);
                        Stderr (backup_failed_line file
                                  "failed while writing backup")])).
Proof.
  intros Hfault Hfree Hempty Hin Hout.
  pose proof (ensure_backup_free file w Hfault Hfree) as Hrun.
  pose proof (backup_inserted_le file (fs w)) as Hle.
  rewrite readable_lookup, file_bytes_lookup, Hempty in *.
  cbn [node_readable node_bytes length] in *. rewrite Hin, Hout in Hrun.
  replace (backup_inserted H file (fs w)) with 0%nat in Hrun by lia.
  cbn [negb Nat.eqb] in Hrun.
  rewrite (UpdateExifInPlace_backup_stop H file dt w _ _ Hrun) by discriminate.
  reflexivity.
Qed.

(** *** [CopyFileBinary] on its own *)

(** [CopyFileBinary] from a source to a different destination, as one
    equation. *)
Lemma CopyFileBinary_run (src dst err : string) (w : world) :
  src ≠ dst →
  CopyFileBinary H src dst err w
  = if readable H (fs w) src then
      if open_out_denied H dst
         || match fs w !! dst with Some Directory => true | _ => false end
      then (Ret (false, "failed to open destination for backup"),
            World (fs w) (trace w ++ [OpenIn src; OpenOut dst]))
      else
        (Ret (if (inserted_length H (<[dst := File []]> (fs w)) dst
                    (file_bytes (fs w) src) =? 0)%nat
              then (false, "failed while writing backup")
              else (true, err)),
         World (<[dst := File (take (kept_length H (<[dst := File []]> (fs w))
                                       dst (file_bytes (fs w) src))
                                 (file_bytes (fs w) src))]> (fs w))
               (trace w ++ [OpenIn src; OpenOut dst]))
    else (Ret (false, "failed to open source for backup"),
          World (fs w) (trace w ++ [OpenIn src])).
Proof.
  intros Hne. apply wp_eq, wp_CopyFileBinary; [exact Hne |].
  destruct (readable H (fs w) src); [| reflexivity].
  destruct (open_out_denied H dst); [reflexivity |]. cbn [orb].
  destruct (fs w !! dst) as [[old |] |]; cbv zeta; try reflexivity;
    destruct (inserted_length H _ dst _ =? 0)%nat; reflexivity.
Qed.

(** X5. The contract of [CopyFileBinary] for two different paths.  It
    always returns, and it never changes the source nor any path but the
    destination.  When the source does not open, or the destination does
    not, it returns [false] with that cause and changes nothing.
    Otherwise the destination is left with a prefix of the bytes of the
    source, all of them exactly when every byte reached the file before
    the stream was closed, and the result only says whether the stream
    accepted a byte: [true], with the error text left as it was, when it
    accepted one, and [false] with the third cause and an empty
    destination when it accepted none, as for a source without bytes. *)
Theorem CopyFileBinary_contract (src dst err : string) (w : world) :
  src ≠ dst →
  ∃ (copied : bool) (cause : string) (w' : world),
    CopyFileBinary H src dst err w = (Ret (copied, cause), w')
    ∧ fs w' !! src = fs w !! src
    ∧ (∀ p, p ≠ dst → fs w' !! p = fs w !! p)
    ∧ (readable H (fs w) src = false →
       copied = false ∧ cause = "failed to open source for backup"
       ∧ fs w' = fs w)
    ∧ (readable H (fs w) src = true →
       open_out_denied H dst = true ∨ fs w !! dst = Some Directory →
       copied = false ∧ cause = "failed to open destination for backup"
       ∧ fs w' = fs w)
    ∧ (readable H (fs w) src = true →
       open_out_denied H dst = false →
       fs w !! dst ≠ Some Directory →
       let data := file_bytes (fs w) src in
       let a := inserted_length H (<[dst := File []]> (fs w)) dst data in
       let k := kept_length H (<[dst := File []]> (fs w)) dst data in
       fs w' !! dst = Some (File (take k data))
       ∧ (fs w' !! dst = Some (File data) ↔ k = length data)
       ∧ (data = [] → a = 0%nat)
       ∧ (a = 0%nat →
          copied = false ∧ cause = "failed while writing backup"
          ∧ fs w' !! dst = Some (File []))
       ∧ (a ≠ 0%nat → copied = true ∧ cause = err)).
Proof.
  intros Hne. rewrite (CopyFileBinary_run src dst err w Hne).
  set (data := file_bytes (fs w) src).
  set (a := inserted_length H (<[dst := File []]> (fs w)) dst data).
  set (k := kept_length H (<[dst := File []]> (fs w)) dst data).
  assert (Hka : (k ≤ a)%nat) by (unfold k, a, kept_length; lia).
  assert (Had : (a ≤ length data)%nat) by (unfold a, inserted_length; lia).
  destruct (readable H (fs w) src) eqn:Hread.
  2: { eexists _, _, _. split; [reflexivity |]. cbn [fs].
       split_and!; try reflexivity; try discriminate; auto. }
  destruct (open_out_denied H dst) eqn:Hout; cbn [orb].
  { eexists _, _, _. split; [reflexivity |]. cbn [fs].
    split_and!; try reflexivity; try discriminate; auto. }
  assert (Hopen : fs w !! dst ≠ Some Directory →
    ∃ (copied : bool) (cause : string) (w' : world),
      (Ret (if (a =? 0)%nat
            then (false, "failed while writing backup") else (true, err)),
       World (<[dst := File (take k data)]> (fs w))
             (trace w ++ [OpenIn src; OpenOut dst]))
      = (Ret (copied, cause), w')
      ∧ fs w' !! src = fs w !! src
      ∧ (∀ p, p ≠ dst → fs w' !! p = fs w !! p)
      ∧ (true = false →
         copied = false ∧ cause = "failed to open source for backup"
         ∧ fs w' = fs w)
      ∧ (true = true →
         false = true ∨ fs w !! dst = Some Directory →
         copied = false ∧ cause = "failed to open destination for backup"
         ∧ fs w' = fs w)
      ∧ (true = true → false = false → fs w !! dst ≠ Some Directory →
         fs w' !! dst = Some (File (take k data))
         ∧ (fs w' !! dst = Some (File data) ↔ k = length data)
         ∧ (data = [] → a = 0%nat)
         ∧ (a = 0%nat →
            copied = false ∧ cause = "failed while writing backup"
            ∧ fs w' !! dst = Some (File []))
         ∧ (a ≠ 0%nat → copied = true ∧ cause = err))).
  { intros Hdir.
    assert (Hall : Some (File (take k data)) = Some (File data)
                   ↔ k = length data).
    { split.
      - intros [= Hall]. apply (f_equal length) in Hall.
        rewrite length_take in Hall. lia.
      - intros ->. rewrite firstn_all. reflexivity. }
    assert (Hempty : data = [] → a = 0%nat).
    { intros Hdata. rewrite Hdata in Had. cbn [length] in Had. lia. }
    destruct (Nat.eqb_spec a 0) as [Hzero | Hpos];
      eexists _, _, _; (split; [reflexivity |]); cbn [fs];
      (split; [apply lookup_insert_ne; congruence |]);
      (split; [intros p Hp; apply lookup_insert_ne; congruence |]);
      (split; [discriminate |]);
      (split; [intros _ [? | ?]; [discriminate | contradiction] |]);
      intros _ _ _; rewrite lookup_insert_eq;
      (split; [reflexivity |]); (split; [exact Hall |]);
      (split; [exact Hempty |]).
    - split; [| intros; contradiction].
      intros _. replace k with 0%nat by lia. auto.
    - split; [intros; contradiction | auto]. }
  destruct (fs w !! dst) as [[old |] |] eqn:Hdst.
  - apply Hopen. discriminate.
  - eexists _, _, _. split; [reflexivity |]. cbn [fs].
    split_and!; try reflexivity; try discriminate; auto.
    intros _ _ Hdir. contradiction.
  - apply Hopen. discriminate.
Qed.

(** *** The footprint of one file *)

Lemma put_node_lookup_ne (p q : string) (n : option node) m :
  p ≠ q → put_node p n m !! q = m !! q.
Proof.
  intros Hne. destruct n; [apply lookup_insert_ne, Hne | reflexivity].
Qed.

Lemma put_node_lookup_eq (p : string) (n : option node) m :
  put_node p n m !! p = match n with Some x => Some x | None => m !! p end.
Proof. destruct n; [apply lookup_insert_eq | reflexivity]. Qed.

Lemma put_node_commute (p q : string) (n k : option node) m :
  p ≠ q → put_node p n (put_node q k m) = put_node q k (put_node p n m).
Proof.
  intros Hne. destruct n, k; cbn; try reflexivity.
  apply insert_insert_ne. exact Hne.
Qed.

(** What [UpdateExifInPlace] does is decided by what is at the file's path
    and at its backup path and by what the stream does with the bytes of
    the backup, and it is done to these two paths. *)
Ltac effect_side :=
  first [ intros; congruence
        | intros; split; reflexivity
        | intros [? | ?]; congruence
        | auto ].

Lemma UpdateExifInPlace_effect (file dt : string) (d b : bool)
    (nf nb : option node) (a k : nat) :
  ∃ (updated : bool) (nf' nb' : option node) (evs : list event),
    (b = false ∨ d = true → nb' = None)
    ∧ (d = true → nf' = None)
    ∧ (nb' = None ∨ nb = None)
    ∧ (d = false → b = true → nb' = None → nb = None →
       nf' = None ∧ updated = false)
    ∧ ∀ w, fs w !! file = nf → fs w !! backup_path_of file = nb →
        backup_inserted H file (fs w) = a →
        backup_kept H file (fs w) = k →
        UpdateExifInPlace H file dt d b w
        = (Ret updated,
           World (put_node file nf' (put_node (backup_path_of file) nb' (fs w)))
                 (trace w ++ evs)).
Proof.
  pose proof (backup_path_ne file) as Hne.
  destruct d.
  { exists true, None, None, [Stdout ("DRY: " +:+ quoted file +:+ nl)].
    split_and!; solve [effect_side]. }
  destruct (mutate_outcome file dt nf) as [[updated left_on_disk] evs2]
    eqn:Hmutate.
  destruct b.
  2: { exists updated, (File <$> left_on_disk), None, evs2.
       split_and!; try solve [effect_side].
       intros w Hf _ _ _.
       rewrite UpdateExifInPlace_no_backup, mutate_run, Hf, Hmutate.
       reflexivity. }
  destruct (status_fault H (backup_path_of file)) as [msg |] eqn:Hfault.
  { eexists false, None, None, [_; _].
    split_and!; try solve [effect_side].
    intros w _ _ _ _.
    rewrite (UpdateExifInPlace_backup_stop H file dt w _ _
               (ensure_backup_status_fault H file msg w Hfault))
      by discriminate.
    cbn [fs trace put_node]. rewrite <- app_assoc. reflexivity. }
  destruct nb as [n |].
  { eexists false, None, None, [_; _].
    split_and!; try solve [effect_side].
    intros w _ Hb _ _.
    rewrite (UpdateExifInPlace_backup_stop H file dt w _ _
               (ensure_backup_exists H file w Hfault
                  ltac:(rewrite Hb; eauto)))
      by discriminate.
    reflexivity. }
  assert (Hfree : ∀ w,
    fs w !! file = nf → fs w !! backup_path_of file = None →
    backup_inserted H file (fs w) = a → backup_kept H file (fs w) = k →
    ensure_backup H file w
    = if node_readable H file nf then
        if open_out_denied H (backup_path_of file) then
          (Ret false,
           World (fs w)
                 (trace w ++ [FsExists (backup_path_of file); OpenIn file;
                              OpenOut (backup_path_of file);
                              Stderr (backup_failed_line file
                                        "failed to open destination for backup")]))
        else if (a =? 0)%nat then
          (Ret false,
           World (<[backup_path_of file := File []]> (fs w))
                 (trace w ++ [FsExists (backup_path_of file); OpenIn file;
                              OpenOut (backup_path_of file);
                              Stderr (backup_failed_line file
                                        "failed while writing backup")]))
        else
          (Ret true,
           World (<[backup_path_of file := File (take k (node_bytes nf))]>
                    (fs w))
                 (trace w ++ [FsExists (backup_path_of file); OpenIn file;
                              OpenOut (backup_path_of file)]))
      else
        (Ret false,
         World (fs w)
               (trace w ++ [FsExists (backup_path_of file); OpenIn file;
                            Stderr (backup_failed_line file
                                      "failed to open source for backup")]))).
  { intros w Hf Hb Ha Hk. rewrite (ensure_backup_free file w Hfault Hb).
    rewrite readable_lookup, file_bytes_lookup, Hf, Ha, Hk. reflexivity. }
  destruct (node_readable H file nf).
  2: { eexists false, None, None, [_; _; _].
       split_and!; try solve [effect_side].
       intros w Hf Hb Ha Hk.
       rewrite (UpdateExifInPlace_backup_stop H file dt w _ _
                  (Hfree w Hf Hb Ha Hk)) by discriminate.
       reflexivity. }
  destruct (open_out_denied H (backup_path_of file)).
  { eexists false, None, None, [_; _; _; _].
    split_and!; try solve [effect_side].
    intros w Hf Hb Ha Hk.
    rewrite (UpdateExifInPlace_backup_stop H file dt w _ _
               (Hfree w Hf Hb Ha Hk)) by discriminate.
    reflexivity. }
  destruct (a =? 0)%nat.
  - eexists false, None, (Some (File [])), [_; _; _; _].
    split_and!; try solve [effect_side].
    intros w Hf Hb Ha Hk.
    rewrite (UpdateExifInPlace_backup_stop H file dt w _ _
               (Hfree w Hf Hb Ha Hk)) by discriminate.
    reflexivity.
  - exists updated, (File <$> left_on_disk),
      (Some (File (take k (node_bytes nf)))),
      ([FsExists (backup_path_of file); OpenIn file;
        OpenOut (backup_path_of file)] ++ evs2)%list.
    split_and!; try solve [effect_side].
    intros w Hf Hb Ha Hk.
    rewrite (UpdateExifInPlace_backed_up H file dt w _ (Hfree w Hf Hb Ha Hk)),
      mutate_run.
    cbn [fs trace]. rewrite lookup_insert_ne, Hf, Hmutate by exact Hne.
    cbn [put_node]. rewrite <- app_assoc. reflexivity.
Qed.

(** The same at a world: no parameter is left open. *)
Lemma UpdateExifInPlace_effect_at (file dt : string) (d b : bool) (w : world) :
  ∃ (updated : bool) (nf' nb' : option node) (evs : list event),
    (b = false ∨ d = true → nb' = None)
    ∧ (d = true → nf' = None)
    ∧ (nb' = None ∨ fs w !! backup_path_of file = None)
    ∧ (d = false → b = true → nb' = None →
       fs w !! backup_path_of file = None →
       nf' = None ∧ updated = false)
    ∧ UpdateExifInPlace H file dt d b w
      = (Ret updated,
         World (put_node file nf' (put_node (backup_path_of file) nb' (fs w)))
               (trace w ++ evs)).
Proof.
  destruct (UpdateExifInPlace_effect file dt d b (fs w !! file)
              (fs w !! backup_path_of file)
              (backup_inserted H file (fs w)) (backup_kept H file (fs w)))
    as (updated & nf' & nb' & evs & Hnb & Hnf & Hkeep & Hquiet & Hrun).
  exists updated, nf', nb', evs.
  split_and!; [exact Hnb | exact Hnf | exact Hkeep | exact Hquiet |].
  apply Hrun; reflexivity.
Qed.

Lemma backup_path_inj (p q : string) :
  backup_path_of p = backup_path_of q → p = q.
Proof.
  unfold backup_path_of. revert q.
  induction p as [| a r IH]; intros [| b t] E; [reflexivity | | |].
  - apply (f_equal String.length) in E. rewrite !length_append in E.
    cbn [String.length] in E. lia.
  - apply (f_equal String.length) in E. rewrite !length_append in E.
    cbn [String.length] in E. lia.
  - change (String a (r +:+ ".bak") = String b (t +:+ ".bak")) in E.
    injection E as -> E. f_equal. apply IH, E.
Qed.

Lemma UpdateExifInPlace_backup_taken (file dt : string) (w : world) :
  is_Some (fs w !! backup_path_of file) →
  ∃ line : string,
    UpdateExifInPlace H file dt false true w
    = (Ret false,
       World (fs w)
             (trace w ++ [FsExists (backup_path_of file); Stderr line])).
Proof.
  intros Hexists.
  destruct (status_fault H (backup_path_of file)) as [msg |] eqn:Hfault.
  - exists (caught_line file (std_exception msg)).
    rewrite (UpdateExifInPlace_backup_stop H file dt w _ _
               (ensure_backup_status_fault H file msg w Hfault))
      by discriminate.
    cbn [fs trace]. rewrite <- app_assoc. reflexivity.
  - exists (backup_exists_line file).
    rewrite (UpdateExifInPlace_backup_stop H file dt w _ _
               (ensure_backup_exists H file w Hfault Hexists))
      by discriminate.
    reflexivity.
Qed.

Lemma put_node_keeps (p q : string) (n : option node) m :
  is_Some (m !! q) → is_Some (put_node p n m !! q).
Proof.
  intros Hq. destruct n as [x |]; [| exact Hq]. cbn.
  destruct (decide (p = q)) as [-> | Hne];
    [rewrite lookup_insert_eq; eauto | rewrite lookup_insert_ne; assumption].
Qed.

(** *** What is reported, and which calls are made *)

Lemma stderr_lines_app (evs1 evs2 : list event) :
  stderr_lines (evs1 ++ evs2) = (stderr_lines evs1 + stderr_lines evs2)%nat.
Proof. unfold stderr_lines. rewrite filter_app, length_app. reflexivity. Qed.

Lemma mutate_outcome_reports (file dt : string) (n : option node) :
  stderr_lines (mutate_outcome file dt n).2
  = (if (mutate_outcome file dt n).1.1 then 0%nat else 1%nat)
  ∧ Forall (λ e, in_footprint file e = true) (mutate_outcome file dt n).2.
Proof.
  unfold mutate_outcome.
  destruct (ImageFactory_open file n) as [[|] | e];
    [| split; [reflexivity |]; repeat constructor; apply String.eqb_refl ..].
  destruct (readMetadata file n) as [exif | e];
    [| split; [reflexivity |]; repeat constructor; apply String.eqb_refl].
  destruct (writeMetadata file n (stamped dt exif)) as [left_on_disk [e |]];
    (split; [reflexivity |]); repeat constructor; apply String.eqb_refl.
Qed.

(** A call that updates the file prints nothing on [std::cerr]; a call that
    fails prints one line there.  Every call it makes into the file system
    or the codec names the file or its backup path. *)
Lemma UpdateExifInPlace_events (file dt : string) (d b : bool) (w : world) :
  ∃ updated w' evs,
    UpdateExifInPlace H file dt d b w = (Ret updated, w')
    ∧ trace w' = (trace w ++ evs)%list
    ∧ stderr_lines evs = (if updated then 0%nat else 1%nat)
    ∧ Forall (λ e, in_footprint file e = true) evs.
Proof.
  destruct d.
  { rewrite UpdateExifInPlace_dry. eexists _, _, _.
    split_and!; try reflexivity. repeat constructor. }
  assert (Hmutate : ∀ w1 evs1,
    trace w1 = (trace w ++ evs1)%list → stderr_lines evs1 = 0%nat →
    Forall (λ e, in_footprint file e = true) evs1 →
    ∃ updated w' evs,
      try_catch (write_timestamps file dt) (UpdateExifInPlace_catch file) w1
      = (Ret updated, w')
      ∧ trace w' = (trace w ++ evs)%list
      ∧ stderr_lines evs = (if updated then 0%nat else 1%nat)
      ∧ Forall (λ e, in_footprint file e = true) evs).
  { intros w1 evs1 Htrace Hquiet Hin. rewrite mutate_run.
    destruct (mutate_outcome_reports file dt (fs w1 !! file))
      as [Hreport Hwithin].
    destruct (mutate_outcome file dt (fs w1 !! file))
      as [[updated left_on_disk] evs2].
    cbn [fst snd] in Hreport, Hwithin.
    exists updated, (World (put_node file (File <$> left_on_disk) (fs w1))
                           (trace w1 ++ evs2)), (evs1 ++ evs2)%list.
    cbn [trace]. rewrite Htrace, <- app_assoc, stderr_lines_app, Hquiet.
    split_and!; [reflexivity | reflexivity | exact Hreport |].
    apply Forall_app. split; assumption. }
  destruct b.
  2: { rewrite UpdateExifInPlace_no_backup.
       apply (Hmutate w []); [rewrite app_nil_r | | constructor]; reflexivity. }
  assert (Hbak : (backup_path_of file =? backup_path_of file) = true)
    by apply String.eqb_refl.
  assert (Hfile : (file =? file) = true) by apply String.eqb_refl.
  destruct (status_fault H (backup_path_of file)) as [msg |] eqn:Hfault.
  { rewrite (UpdateExifInPlace_backup_stop H file dt w _ _
               (ensure_backup_status_fault H file msg w Hfault))
      by discriminate.
    eexists _, _, _. split; [reflexivity |]. cbn [fs trace].
    rewrite <- app_assoc. split_and!; try reflexivity.
    repeat constructor; assumption. }
  destruct (fs w !! backup_path_of file) as [n |] eqn:Hfree.
  { rewrite (UpdateExifInPlace_backup_stop H file dt w _ _
               (ensure_backup_exists H file w Hfault
                  ltac:(rewrite Hfree; eauto)))
      by discriminate.
    eexists _, _, _. split; [reflexivity |].
    split_and!; try reflexivity. repeat constructor; assumption. }
  pose proof (ensure_backup_free file w Hfault Hfree) as Hrun.
  destruct (readable H (fs w) file).
  2: { rewrite (UpdateExifInPlace_backup_stop H file dt w _ _ Hrun)
         by discriminate.
       eexists _, _, _. split; [reflexivity |].
       split_and!; try reflexivity. repeat constructor; assumption. }
  destruct (open_out_denied H (backup_path_of file)).
  { rewrite (UpdateExifInPlace_backup_stop H file dt w _ _ Hrun)
      by discriminate.
    eexists _, _, _. split; [reflexivity |].
    split_and!; try reflexivity. repeat constructor; assumption. }
  destruct (backup_inserted H file (fs w) =? 0)%nat.
  - rewrite (UpdateExifInPlace_backup_stop H file dt w _ _ Hrun)
      by discriminate.
    eexists _, _, _. split; [reflexivity |].
    split_and!; try reflexivity. repeat constructor; assumption.
  - rewrite (UpdateExifInPlace_backed_up H file dt w _ Hrun).
    apply (Hmutate _ [FsExists (backup_path_of file); OpenIn file;
                      OpenOut (backup_path_of file)]);
      [reflexivity | reflexivity | repeat constructor; assumption].
Qed.

(** X11. The footprint of [UpdateExifInPlace].  It always returns a flag,
    and every call it makes into the file system or the codec names the
    file or its backup path: the existence check and the write stream the
    backup path, the read stream and the codec the file.  In a file system
    without links, where each path names an object of its own, every path
    but these two is therefore left as it was; no path is ever removed; the
    backup path is left alone when the backup step is off, in a dry run, or
    when something is already there; and a dry run leaves the whole file
    system as it was. *)
Theorem update_touches_the_file_and_its_backup (file dt : string) (d b : bool)
    (w : world) :
  ∃ updated w' evs,
    UpdateExifInPlace H file dt d b w = (Ret updated, w')
    ∧ trace w' = (trace w ++ evs)%list
    ∧ Forall (λ e, in_footprint file e = true) evs
    ∧ (∀ p, p ≠ file → p ≠ backup_path_of file → fs w' !! p = fs w !! p)
    ∧ (∀ p, is_Some (fs w !! p) → is_Some (fs w' !! p))
    ∧ (b = false ∨ d = true ∨ is_Some (fs w !! backup_path_of file) →
       fs w' !! backup_path_of file = fs w !! backup_path_of file)
    ∧ (d = true → fs w' = fs w).
Proof.
  pose proof (backup_path_ne file) as Hne.
  destruct (UpdateExifInPlace_effect_at file dt d b w)
    as (updated & nf' & nb' & evs & Hnb & Hnf & Hkeep & _ & Hrun).
  destruct (UpdateExifInPlace_events file dt d b w)
    as (updated2 & w2 & evs2 & Hrun2 & Htrace & _ & Hwithin).
  rewrite Hrun in Hrun2. injection Hrun2 as <- <-.
  cbn [trace] in Htrace. apply app_inv_head in Htrace. subst evs2.
  eexists _, _, evs. split; [exact Hrun |]. cbn [fs trace].
  split_and!; [reflexivity | exact Hwithin | | | |].
  - intros p Hp Hq. rewrite !put_node_lookup_ne by congruence. reflexivity.
  - intros p Hp. apply put_node_keeps, put_node_keeps, Hp.
  - intros Hcase. rewrite put_node_lookup_ne by congruence.
    rewrite put_node_lookup_eq.
    destruct Hcase as [Hb | [Hd | Hsome]].
    + rewrite Hnb by auto. reflexivity.
    + rewrite Hnb by auto. reflexivity.
    + destruct Hkeep as [-> | Hfree]; [reflexivity |].
      rewrite Hfree in Hsome. destruct Hsome; discriminate.
  - intros Hd. rewrite Hnf, Hnb by auto. reflexivity.
Qed.

(** X12. The update is not repeatable with backups on: after a call that
    updated the file, or that changed the file system at all, the backup
    path is taken, so the next call on the same file, with any timestamp,
    fails at the existing backup and changes nothing. *)
Theorem a_changed_file_is_refused_next_time (file dt dt' : string)
    (w : world) (updated : bool) (w' : world) :
  UpdateExifInPlace H file dt false true w = (Ret updated, w') →
  updated = true ∨ fs w' ≠ fs w →
  is_Some (fs w' !! backup_path_of file)
  ∧ ∃ line : string,
      UpdateExifInPlace H file dt' false true w'
      = (Ret false,
         World (fs w')
               (trace w' ++ [FsExists (backup_path_of file); Stderr line])).
Proof.
  intros Hfirst Hchanged.
  pose proof (backup_path_ne file) as Hne.
  destruct (UpdateExifInPlace_effect_at file dt false true w)
    as (updated0 & nf' & nb' & evs & _ & _ & Hkeep & Hquiet & Hrun).
  rewrite Hrun in Hfirst.
  injection Hfirst as -> <-. cbn [fs] in *.
  assert (Hsome : is_Some (put_node file nf'
                             (put_node (backup_path_of file) nb' (fs w))
                           !! backup_path_of file)).
  { rewrite put_node_lookup_ne by congruence. rewrite put_node_lookup_eq.
    destruct nb' as [n |]; [eauto |].
    destruct (fs w !! backup_path_of file) as [n |] eqn:Hbak; [eauto |].
    destruct (Hquiet eq_refl eq_refl eq_refl eq_refl) as [-> ->].
    cbn [put_node] in Hchanged.
    destruct Hchanged as [? | Hdiff]; [discriminate | contradiction]. }
  split; [exact Hsome |].
  apply (UpdateExifInPlace_backup_taken file dt'
           (World (put_node file nf'
                     (put_node (backup_path_of file) nb' (fs w)))
                  (trace w ++ evs))).
  exact Hsome.
Qed.

(** *** The backup step and the codec *)

(** X7. When [fs::exists] throws for the backup path, the exception is
    caught by the handler of [UpdateExifInPlace]: the file fails with the
    generic error line, nothing is copied and the codec is never called,
    whether or not a backup is there. *)
Theorem unknown_backup_status_fails_the_file (file dt msg : string) (w : world) :
  status_fault H (backup_path_of file) = Some msg →
  UpdateExifInPlace H file dt false true w
  = (Ret false,
     World (fs w)
           (trace w ++ [FsExists (backup_path_of file);
                        Stderr (caught_line file (std_exception msg))])).
Proof.
  intros Hfault.
  rewrite (UpdateExifInPlace_backup_stop H file dt w _ _
             (ensure_backup_status_fault H file msg w Hfault))
    by discriminate.
  cbn [fs trace]. rewrite <- app_assoc. reflexivity.
Qed.

(** A backup step that lets the file through found a regular file with
    at least one byte and a free backup path, and left a prefix of the
    bytes of the file at the backup path. *)
Lemma ensure_backup_success (file : string) (w w1 : world) :
  ensure_backup H file w = (Ret true, w1) →
  ∃ data,
    fs w !! file = Some (File data)
    ∧ data ≠ []
    ∧ fs w !! backup_path_of file = None
    ∧ w1 = World (<[backup_path_of file
                    := File (take (backup_kept H file (fs w)) data)]> (fs w))
                 (trace w ++ [FsExists (backup_path_of file); OpenIn file;
                              OpenOut (backup_path_of file)]).
Proof.
  intros Hrun.
  destruct (status_fault H (backup_path_of file)) as [msg |] eqn:Hfault.
  { rewrite (ensure_backup_status_fault H file msg w Hfault) in Hrun.
    discriminate. }
  destruct (fs w !! backup_path_of file) as [n |] eqn:Hbak.
  { rewrite (ensure_backup_exists H file w Hfault) in Hrun
      by (rewrite Hbak; eauto).
    discriminate. }
  rewrite (ensure_backup_free file w Hfault Hbak) in Hrun.
  destruct (readable H (fs w) file); [| discriminate Hrun].
  destruct (open_out_denied H (backup_path_of file)); [discriminate Hrun |].
  destruct (Nat.eqb_spec (backup_inserted H file (fs w)) 0) as [Hzero | Hpos];
    [discriminate Hrun |].
  injection Hrun as <-.
  pose proof (backup_inserted_le file (fs w)) as Hle.
  rewrite file_bytes_lookup in *.
  destruct (fs w !! file) as [[data |] |]; cbn [node_bytes length] in *;
    [| lia ..].
  exists data. split_and!; try reflexivity.
  intros ->. cbn [length] in Hle. lia.
Qed.

(** X10. With the backup step on, the codec runs only behind a backup that
    passed the check: if the image was opened at all, then the file was a
    regular file with at least one byte and without a backup, the backup
    was taken first, and the image was opened once.  When the call returns,
    the backup holds a prefix of the bytes that the file had before the
    call: all of them exactly when every byte reached the backup before
    its stream was closed. *)
Theorem codec_runs_only_behind_a_backup (file dt : string) (w : world)
    (updated : bool) (w' : world) (evs : list event) :
  UpdateExifInPlace H file dt false true w = (Ret updated, w') →
  trace w' = (trace w ++ evs)%list →
  image_opens evs ≠ [] →
  ∃ data rest,
    fs w !! file = Some (File data)
    ∧ data ≠ []
    ∧ fs w !! backup_path_of file = None
    ∧ fs w' !! backup_path_of file
      = Some (File (take (backup_kept H file (fs w)) data))
    ∧ (fs w' !! backup_path_of file = Some (File data)
       ↔ backup_kept H file (fs w) = length data)
    ∧ evs = ([FsExists (backup_path_of file); OpenIn file;
              OpenOut (backup_path_of file)] ++ rest)%list
    ∧ image_opens rest = [file].
Proof.
  intros Hrun Htrace Hopened.
  pose proof (backup_path_ne file) as Hne.
  destruct (ensure_backup_shape H file w)
    as (r & w1 & evs1 & Hbackup & Htrace1 & Hcodec & _ & _).
  assert (Hcases : r = Ret true ∨ r ≠ Ret true)
    by (destruct r as [[|] | e]; [left; reflexivity | right; discriminate ..]).
  destruct Hcases as [-> | Hstop].
  - destruct (ensure_backup_success file w w1 Hbackup)
      as (data & Hsrc & Hdata & Hfree & ->).
    rewrite (UpdateExifInPlace_backed_up H file dt w _ Hbackup), mutate_run
      in Hrun.
    cbn [fs trace] in Hrun.
    destruct (mutate_outcome file dt _) as [[updated2 left_on_disk] evs2]
      eqn:Hmutate.
    injection Hrun as <- <-. cbn [fs trace] in *.
    exists data, evs2.
    rewrite <- app_assoc in Htrace. apply app_inv_head in Htrace.
    assert (Hleft : put_node file (File <$> left_on_disk)
                      (<[backup_path_of file
                         := File (take (backup_kept H file (fs w)) data)]>
                         (fs w))
                    !! backup_path_of file
                    = Some (File (take (backup_kept H file (fs w)) data))).
    { rewrite put_node_lookup_ne by congruence. apply lookup_insert_eq. }
    pose proof (take_backup_kept_all file (fs w)) as Hall.
    rewrite file_bytes_lookup, Hsrc in Hall. cbn [node_bytes] in Hall.
    split_and!; [exact Hsrc | exact Hdata | exact Hfree | exact Hleft | |
                 symmetry; exact Htrace |].
    + rewrite Hleft, <- Hall. split; [intros [= E]; exact E | intros ->; reflexivity].
    + apply (f_equal snd) in Hmutate. cbn [snd] in Hmutate.
      rewrite <- Hmutate. unfold mutate_outcome.
      destruct (ImageFactory_open file _) as [[|] | e]; try reflexivity.
      destruct (readMetadata file _) as [exif | e]; try reflexivity.
      destruct (writeMetadata file _ (stamped dt exif)) as [left' [e |]];
        reflexivity.
  - rewrite (UpdateExifInPlace_backup_stop H file dt w r w1 Hbackup Hstop)
      in Hrun.
    injection Hrun as <- <-. exfalso. apply Hopened.
    apply image_opens_no_codec.
    destruct r as [flag | e].
    + rewrite Htrace1 in Htrace. apply app_inv_head in Htrace.
      rewrite <- Htrace. exact Hcodec.
    + cbn [trace] in Htrace. rewrite Htrace1, <- app_assoc in Htrace.
      apply app_inv_head in Htrace. rewrite <- Htrace.
      apply Forall_app. split; [exact Hcodec | repeat constructor].
Qed.

(** X17. What the backup step guarantees.  A backup path that is taken is
    never written to.  When the step lets the file through, the file was a
    regular file with at least one byte, the backup path was free, and the
    backup is all that changed: it holds a prefix of the bytes of the file,
    all of them exactly when every byte reached the backup before its
    stream was closed.  Where the status of the backup path can be
    queried, both streams open and the stream accepts a byte, a regular
    file with a free backup path is let through.  And whenever the step
    does not let the file through, [UpdateExifInPlace]
    returns [false] without a call into the codec and without a change to
    the file. *)
Theorem backup_step_guarantees (file : string) (w : world) :
  ∃ r w1,
    ensure_backup H file w = (r, w1)
    ∧ (is_Some (fs w !! backup_path_of file) → r ≠ Ret true ∧ fs w1 = fs w)
    ∧ (r = Ret true →
       ∃ data,
         fs w !! file = Some (File data)
         ∧ data ≠ []
         ∧ fs w !! backup_path_of file = None
         ∧ fs w1
           = <[backup_path_of file
               := File (take (backup_kept H file (fs w)) data)]> (fs w)
         ∧ (fs w1 !! backup_path_of file = Some (File data)
            ↔ backup_kept H file (fs w) = length data))
    ∧ (∀ data,
         status_fault H (backup_path_of file) = None →
         open_in_denied H file = false →
         open_out_denied H (backup_path_of file) = false →
         fs w !! file = Some (File data) →
         fs w !! backup_path_of file = None →
         backup_inserted H file (fs w) ≠ 0%nat →
         r = Ret true)
    ∧ (r ≠ Ret true →
       ∀ dt : string, ∃ w2 evs,
         UpdateExifInPlace H file dt false true w = (Ret false, w2)
         ∧ fs w2 = fs w1
         ∧ fs w2 !! file = fs w !! file
         ∧ trace w2 = (trace w ++ evs)%list
         ∧ Forall (λ e, codec_event e = false) evs).
Proof.
  destruct (ensure_backup_shape H file w)
    as (r & w1 & evs1 & Hrun & Htrace & Hcodec & _ & Hfile).
  exists r, w1. split; [exact Hrun |].
  split_and!.
  - intros Hsome.
    destruct (status_fault H (backup_path_of file)) as [msg |] eqn:Hfault.
    + rewrite (ensure_backup_status_fault H file msg w Hfault) in Hrun.
      injection Hrun as <- <-. split; [discriminate | reflexivity].
    + rewrite (ensure_backup_exists H file w Hfault Hsome) in Hrun.
      injection Hrun as <- <-. split; [discriminate | reflexivity].
  - intros ->.
    destruct (ensure_backup_success file w w1 Hrun)
      as (data & Hsrc & Hdata & Hfree & ->).
    exists data. cbn [fs].
    split_and!; [exact Hsrc | exact Hdata | exact Hfree | reflexivity |].
    pose proof (take_backup_kept_all file (fs w)) as Hall.
    rewrite file_bytes_lookup, Hsrc in Hall. cbn [node_bytes] in Hall.
    rewrite lookup_insert_eq, <- Hall.
    split; [intros [= E]; exact E | intros ->; reflexivity].
  - intros data Hfault Hin Hout Hsrc Hfree Hpos.
    rewrite (ensure_backup_free file w Hfault Hfree) in Hrun.
    rewrite readable_lookup, Hsrc in Hrun. cbn [node_readable] in Hrun.
    rewrite Hin, Hout in Hrun. cbn [negb] in Hrun.
    apply Nat.eqb_neq in Hpos. rewrite Hpos in Hrun.
    injection Hrun as <- _. reflexivity.
  - intros Hr dt.
    rewrite (UpdateExifInPlace_backup_stop H file dt w r w1 Hrun Hr).
    destruct r as [updated | e].
    + exists w1, evs1. auto.
    + eexists _, (evs1 ++ [_])%list. split; [reflexivity |]. cbn [fs trace].
      rewrite Htrace, <- app_assoc.
      split_and!; [reflexivity | exact Hfile | reflexivity |].
      apply Forall_app. split; [exact Hcodec | repeat constructor].
Qed.

(** *** The whole traversal *)

Lemma regular_files_split (es : list directory_entry) :
  (length (filter (λ e, candidate (format H) e = true) es)
   + length (filter (λ e, skipped_by_type (format H) e = true) es))%nat
  = length (filter (λ e, is_regular_file e = true) es).
Proof.
  induction es as [| e rest IH]; [reflexivity |].
  rewrite filter_candidate_cons, filter_skipped_cons.
  assert (Hc : candidate (format H) e
               = is_regular_file e && IsJpegPath (format H) (path e))
    by reflexivity.
  assert (Hs : skipped_by_type (format H) e
               = is_regular_file e && negb (IsJpegPath (format H) (path e)))
    by reflexivity.
  rewrite Hc, Hs.
  destruct (is_regular_file e) eqn:Hreg; cbn [andb].
  - rewrite filter_cons_True by exact Hreg.
    destruct (IsJpegPath (format H) (path e)); cbn [negb length]; lia.
  - rewrite filter_cons_False by (rewrite Hreg; discriminate). exact IH.
Qed.

(** X13. Every regular file is counted once: for a listing that fits
    [std::size_t], the loop always ends, [total + skipped] is the number of
    regular files of the listing, and [ok] is at most [total]. *)
Theorem every_regular_file_is_counted_once (dt : string) (o : options)
    (es : list directory_entry) (w : world) :
  (Z.of_nat (length es) ≤ SIZE_MAX)%Z →
  ∃ c w',
    process_entries H dt o es (Counters 0 0 0) w = (Ret c, w')
    ∧ (total c + skipped c)%Z
      = Z.of_nat (length (filter (λ e, is_regular_file e = true) es))
    ∧ (ok c ≤ total c)%Z.
Proof.
  intros Hfit.
  destruct (process_entries_shape H dt o es (Counters 0 0 0) w)
    as (c & w' & evs & Hloop & _).
  exists c, w'. split; [exact Hloop |].
  destruct (process_entries_counts H dt o es _ _ _ _ Hloop)
    as (Hok & Htotal & Hskipped); cbn [total ok skipped]; try lia.
  cbn [total skipped] in Htotal, Hskipped.
  rewrite <- regular_files_split. lia.
Qed.

(** X14. The loop deals with candidates and their backups only.  From any
    counters and any world it ends, and every call it makes into the file
    system or the codec names a candidate of the listing or the backup path
    of one.  In a file system without links, where each path names an
    object of its own, a path that is neither is therefore left as it was,
    and no path is ever removed. *)
Theorem batch_touches_candidates_only (dt : string) (o : options)
    (es : list directory_entry) :
  ∀ (c : counters) (w : world),
    ∃ c' w' evs,
      process_entries H dt o es c w = (Ret c', w')
      ∧ trace w' = (trace w ++ evs)%list
      ∧ Forall (λ ev, ∃ e, e ∈ es ∧ candidate (format H) e = true
                          ∧ in_footprint (path e) ev = true) evs
      ∧ (∀ p,
           (∀ e, e ∈ es → candidate (format H) e = true →
              p ≠ path e ∧ p ≠ backup_path_of (path e)) →
           fs w' !! p = fs w !! p)
      ∧ (∀ p, is_Some (fs w !! p) → is_Some (fs w' !! p)).
Proof.
  induction es as [| e rest IH]; intros c w.
  { exists c, w, []. rewrite app_nil_r. split_and!; auto. }
  rewrite process_entries_cons.
  destruct (candidate (format H) e) eqn:Hcand.
  - destruct (UpdateExifInPlace_effect_at (path e) dt (dry_run o)
                (make_backup o) w)
      as (updated & nf' & nb' & evs & _ & _ & _ & _ & Hrun).
    destruct (UpdateExifInPlace_events (path e) dt (dry_run o)
                (make_backup o) w)
      as (updated2 & w2 & evs2 & Hrun2 & Htrace & _ & Hwithin).
    rewrite Hrun in Hrun2. injection Hrun2 as <- <-.
    cbn [trace] in Htrace. apply app_inv_head in Htrace. subst evs2.
    rewrite (process_entry_candidate H dt o e c w updated _ Hcand Hrun).
    destruct (IH (count_updated updated c)
                 (World (put_node (path e) nf'
                           (put_node (backup_path_of (path e)) nb' (fs w)))
                        (trace w ++ evs)))
      as (c' & w' & evs' & -> & Htrace' & Hwithin' & Hframe & Hkeep).
    exists c', w', (evs ++ evs')%list. cbn [fs trace] in *.
    split_and!; [reflexivity | rewrite Htrace', <- app_assoc; reflexivity | | |].
    + apply Forall_app. split.
      * eapply Forall_impl; [exact Hwithin |].
        intros ev Hev. exists e. split_and!; [left | exact Hcand | exact Hev].
      * eapply Forall_impl; [exact Hwithin' |].
        intros ev (e' & He' & Hc' & Hev). exists e'.
        split_and!; [right; exact He' | exact Hc' | exact Hev].
    + intros p Hp. rewrite Hframe.
      * destruct (Hp e) as [Hfile Hbak]; [left | exact Hcand |].
        rewrite !put_node_lookup_ne by congruence. reflexivity.
      * intros e' He'. apply Hp. right. exact He'.
    + intros p Hp. apply Hkeep, put_node_keeps, put_node_keeps, Hp.
  - rewrite (process_entry_other H dt o e c w Hcand).
    destruct (IH (if skipped_by_type (format H) e then count_skipped c else c) w)
      as (c' & w' & evs' & -> & Htrace' & Hwithin' & Hframe & Hkeep).
    exists c', w', evs'.
    split_and!; [reflexivity | exact Htrace' | | | exact Hkeep].
    + eapply Forall_impl; [exact Hwithin' |].
      intros ev (e' & He' & Hc' & Hev). exists e'.
      split_and!; [right; exact He' | exact Hc' | exact Hev].
    + intros p Hp. apply Hframe. intros e' He'. apply Hp. right. exact He'.
Qed.

(** *** The order of the traversal *)

Section Order.

(** What a stream accepts and what reaches the disk is decided for each
    file on its own: nothing that the run writes for one file takes
    anything away from another, as free space would. *)
Hypothesis accepts_by_file :
  ∀ (m m' : gmap string node) (p : string) (n : nat),
    stream_accepts H m p n = stream_accepts H m' p n.
Hypothesis keeps_by_file :
  ∀ (m m' : gmap string node) (p : string) (n : nat),
    disk_keeps H m p n = disk_keeps H m' p n.

Lemma backup_inserted_by_file (file : string) (m m' : gmap string node) :
  m !! file = m' !! file →
  backup_inserted H file m = backup_inserted H file m'.
Proof.
  intros Hsame. unfold backup_inserted, inserted_length.
  rewrite !file_bytes_lookup, Hsame.
  rewrite (accepts_by_file _ (<[backup_path_of file := File []]> m')).
  reflexivity.
Qed.

Lemma backup_kept_by_file (file : string) (m m' : gmap string node) :
  m !! file = m' !! file →
  backup_kept H file m = backup_kept H file m'.
Proof.
  intros Hsame. unfold backup_kept, kept_length.
  change (inserted_length H (<[backup_path_of file := File []]> m)
            (backup_path_of file) (file_bytes m file))
    with (backup_inserted H file m).
  change (inserted_length H (<[backup_path_of file := File []]> m')
            (backup_path_of file) (file_bytes m' file))
    with (backup_inserted H file m').
  rewrite (backup_inserted_by_file file m m' Hsame).
  rewrite (keeps_by_file _ (<[backup_path_of file := File []]> m')).
  reflexivity.
Qed.

Lemma process_entry_same_fs (dt : string) (o : options) e c w1 w2 :
  fs w1 = fs w2 →
  ∃ c' w1' w2',
    process_entry H dt o e c w1 = (Ret c', w1')
    ∧ process_entry H dt o e c w2 = (Ret c', w2')
    ∧ fs w1' = fs w2'.
Proof.
  intros Hfs.
  destruct (candidate (format H) e) eqn:Hcand.
  - destruct (UpdateExifInPlace_effect (path e) dt (dry_run o) (make_backup o)
                (fs w1 !! path e) (fs w1 !! backup_path_of (path e))
                (backup_inserted H (path e) (fs w1))
                (backup_kept H (path e) (fs w1)))
      as (updated & nf' & nb' & evs & _ & _ & _ & _ & Hrun).
    pose proof (Hrun w1 eq_refl eq_refl eq_refl eq_refl) as Hrun1.
    pose proof (Hrun w2 ltac:(rewrite Hfs; reflexivity)
                  ltac:(rewrite Hfs; reflexivity)
                  ltac:(rewrite Hfs; reflexivity)
                  ltac:(rewrite Hfs; reflexivity)) as Hrun2.
    rewrite (process_entry_candidate H dt o e c w1 updated _ Hcand Hrun1).
    rewrite (process_entry_candidate H dt o e c w2 updated _ Hcand Hrun2).
    eexists _, _, _. split_and!; [reflexivity .. |].
    cbn [fs]. rewrite Hfs. reflexivity.
  - rewrite !(process_entry_other H dt o e c _ Hcand).
    eexists _, _, _. split_and!; [reflexivity .. | exact Hfs].
Qed.

Lemma process_entries_same_fs (dt : string) (o : options) es :
  ∀ c w1 w2,
    fs w1 = fs w2 →
    ∃ c' w1' w2',
      process_entries H dt o es c w1 = (Ret c', w1')
      ∧ process_entries H dt o es c w2 = (Ret c', w2')
      ∧ fs w1' = fs w2'.
Proof.
  induction es as [| e rest IH]; intros c w1 w2 Hfs.
  { exists c, w1, w2. auto. }
  rewrite !process_entries_cons.
  destruct (process_entry_same_fs dt o e c w1 w2 Hfs)
    as (c1 & w1' & w2' & -> & -> & Hfs').
  apply IH, Hfs'.
Qed.

Lemma count_updated_comm (a b : bool) (c : counters) :
  count_updated a (count_updated b c) = count_updated b (count_updated a c).
Proof. destruct a, b; reflexivity. Qed.

Lemma count_updated_skipped (a : bool) (c : counters) :
  count_updated a (count_skipped c) = count_skipped (count_updated a c).
Proof. reflexivity. Qed.

Lemma four_writes_commute (px bx py bY : string) (nfx nbx nfy nby : option node)
    (m : gmap string node) :
  px ≠ py → px ≠ bY → bx ≠ py → bx ≠ bY →
  put_node py nfy (put_node bY nby (put_node px nfx (put_node bx nbx m)))
  = put_node px nfx (put_node bx nbx (put_node py nfy (put_node bY nby m))).
Proof.
  intros H1 H2 H3 H4.
  rewrite (put_node_commute bY px nby nfx) by (apply not_eq_sym, H2).
  rewrite (put_node_commute bY bx nby nbx) by (apply not_eq_sym, H4).
  rewrite (put_node_commute py px nfy nfx) by (apply not_eq_sym, H1).
  rewrite (put_node_commute py bx nfy nbx) by (apply not_eq_sym, H3).
  reflexivity.
Qed.

Lemma candidates_with_one_path (x y : directory_entry) :
  candidate (format H) x = true → candidate (format H) y = true →
  path x = path y → x = y.
Proof.
  unfold candidate. intros [Hrx _]%andb_prop [Hry _]%andb_prop Hp.
  destruct x, y. cbn in *. congruence.
Qed.

Lemma candidate_paths_apart (x y : directory_entry) :
  candidate (format H) x = true → candidate (format H) y = true →
  path x ≠ path y →
  path x ≠ backup_path_of (path y)
  ∧ backup_path_of (path x) ≠ path y
  ∧ backup_path_of (path x) ≠ backup_path_of (path y).
Proof.
  unfold candidate. intros [Hrx Hjx]%andb_prop [Hry Hjy]%andb_prop Hp.
  split_and!.
  - intros E. rewrite E, IsJpegPath_backup in Hjx. discriminate.
  - intros E. rewrite <- E, IsJpegPath_backup in Hjy. discriminate.
  - intros E. apply Hp, backup_path_inj, E.
Qed.

Lemma process_entries_swap (dt : string) (o : options) x y c w :
  ∃ c' w1 w2,
    process_entries H dt o [x; y] c w = (Ret c', w1)
    ∧ process_entries H dt o [y; x] c w = (Ret c', w2)
    ∧ fs w1 = fs w2.
Proof.
  destruct (candidate (format H) x) eqn:Hx;
    destruct (candidate (format H) y) eqn:Hy.
  - destruct (decide (path x = path y)) as [Hsame | H1].
    { rewrite (candidates_with_one_path x y Hx Hy Hsame).
      destruct (process_entries_shape H dt o [y; y] c w)
        as (c' & w' & evs & Hrun & _).
      exists c', w', w'. auto. }
    rewrite !process_entries_cons.
    destruct (candidate_paths_apart x y Hx Hy H1) as (H2 & H3 & H4).
    destruct (UpdateExifInPlace_effect (path x) dt (dry_run o) (make_backup o)
                (fs w !! path x) (fs w !! backup_path_of (path x))
                (backup_inserted H (path x) (fs w))
                (backup_kept H (path x) (fs w)))
      as (ux & nfx & nbx & evx & _ & _ & _ & _ & Hrunx).
    destruct (UpdateExifInPlace_effect (path y) dt (dry_run o) (make_backup o)
                (fs w !! path y) (fs w !! backup_path_of (path y))
                (backup_inserted H (path y) (fs w))
                (backup_kept H (path y) (fs w)))
      as (uy & nfy & nby & evy & _ & _ & _ & _ & Hruny).
    rewrite (process_entry_candidate H dt o x c w ux _ Hx
               (Hrunx w eq_refl eq_refl eq_refl eq_refl)).
    rewrite (process_entry_candidate H dt o y c w uy _ Hy
               (Hruny w eq_refl eq_refl eq_refl eq_refl)).
    rewrite !process_entries_cons.
    assert (Hy_after_x :
      UpdateExifInPlace H (path y) dt (dry_run o) (make_backup o)
        (World (put_node (path x) nfx
                  (put_node (backup_path_of (path x)) nbx (fs w)))
               (trace w ++ evx))
      = (Ret uy,
         World (put_node (path y) nfy
                  (put_node (backup_path_of (path y)) nby
                     (put_node (path x) nfx
                        (put_node (backup_path_of (path x)) nbx (fs w)))))
               ((trace w ++ evx) ++ evy))).
    { apply Hruny; cbn [fs];
        [| | apply backup_inserted_by_file | apply backup_kept_by_file];
        rewrite !put_node_lookup_ne by congruence; reflexivity. }
    assert (Hx_after_y :
      UpdateExifInPlace H (path x) dt (dry_run o) (make_backup o)
        (World (put_node (path y) nfy
                  (put_node (backup_path_of (path y)) nby (fs w)))
               (trace w ++ evy))
      = (Ret ux,
         World (put_node (path x) nfx
                  (put_node (backup_path_of (path x)) nbx
                     (put_node (path y) nfy
                        (put_node (backup_path_of (path y)) nby (fs w)))))
               ((trace w ++ evy) ++ evx))).
    { apply Hrunx; cbn [fs];
        [| | apply backup_inserted_by_file | apply backup_kept_by_file];
        rewrite !put_node_lookup_ne by congruence; reflexivity. }
    rewrite (process_entry_candidate H dt o y _ _ uy _ Hy Hy_after_x).
    rewrite (process_entry_candidate H dt o x _ _ ux _ Hx Hx_after_y).
    cbn [process_entries]. eexists _, _, _.
    split_and!; [reflexivity | rewrite count_updated_comm; reflexivity |].
    cbn [fs]. apply four_writes_commute; assumption.
  - rewrite !process_entries_cons.
    destruct (UpdateExifInPlace_effect_at (path x) dt (dry_run o)
                (make_backup o) w)
      as (ux & nfx & nbx & evx & _ & _ & _ & _ & Hrunx).
    rewrite (process_entry_candidate H dt o x c w ux _ Hx Hrunx).
    rewrite (process_entry_other H dt o y c w Hy).
    rewrite !process_entries_cons.
    rewrite (process_entry_other H dt o y _ _ Hy).
    rewrite (process_entry_candidate H dt o x _ w ux _ Hx Hrunx).
    cbn [process_entries]. eexists _, _, _.
    split_and!; [reflexivity | | reflexivity].
    destruct (skipped_by_type (format H) y); reflexivity.
  - rewrite !process_entries_cons.
    destruct (UpdateExifInPlace_effect_at (path y) dt (dry_run o)
                (make_backup o) w)
      as (uy & nfy & nby & evy & _ & _ & _ & _ & Hruny).
    rewrite (process_entry_candidate H dt o y c w uy _ Hy Hruny).
    rewrite (process_entry_other H dt o x c w Hx).
    rewrite !process_entries_cons.
    rewrite (process_entry_other H dt o x _ _ Hx).
    rewrite (process_entry_candidate H dt o y _ w uy _ Hy Hruny).
    cbn [process_entries]. eexists _, _, _.
    split_and!; [reflexivity | | reflexivity].
    destruct (skipped_by_type (format H) x); reflexivity.
  - rewrite !process_entries_cons.
    rewrite (process_entry_other H dt o x c w Hx).
    rewrite (process_entry_other H dt o y c w Hy).
    rewrite !process_entries_cons.
    rewrite (process_entry_other H dt o y _ _ Hy).
    rewrite (process_entry_other H dt o x _ _ Hx).
    cbn [process_entries]. eexists _, _, _.
    split_and!; [reflexivity | | reflexivity].
    destruct (skipped_by_type (format H) x), (skipped_by_type (format H) y);
      reflexivity.
Qed.

Lemma process_entries_two (dt : string) (o : options) x y l c w :
  process_entries H dt o (x :: y :: l) c w
  = match process_entries H dt o [x; y] c w with
    | (Ret c', w') => process_entries H dt o l c' w'
    | (Throw e, w') => (Throw e, w')
    end.
Proof.
  rewrite !process_entries_cons.
  destruct (process_entry H dt o x c w) as [[c1 | e] w1]; [| reflexivity].
  rewrite !process_entries_cons.
  destruct (process_entry H dt o y c1 w1) as [[c2 | e] w2]; reflexivity.
Qed.

Lemma process_entries_permutation (dt : string) (o : options) es es' :
  Permutation es es' →
  ∀ c w1 w2,
    fs w1 = fs w2 →
    ∃ c' w1' w2',
      process_entries H dt o es c w1 = (Ret c', w1')
      ∧ process_entries H dt o es' c w2 = (Ret c', w2')
      ∧ fs w1' = fs w2'.
Proof.
  induction 1 as [| x l l' _ IH | x y l | l l' l'' _ IH1 _ IH2];
    intros c w1 w2 Hfs.
  - exists c, w1, w2. auto.
  - rewrite !process_entries_cons.
    destruct (process_entry_same_fs dt o x c w1 w2 Hfs)
      as (c1 & w1' & w2' & -> & -> & Hfs').
    apply IH, Hfs'.
  - rewrite (process_entries_two dt o y x l), (process_entries_two dt o x y l).
    destruct (process_entries_swap dt o y x c w1)
      as (c1 & wa & wb & -> & Hxy & Hab).
    destruct (process_entries_same_fs dt o [x; y] c w1 w2 Hfs)
      as (c2 & wb' & wc & Hxy' & -> & Hbc).
    rewrite Hxy in Hxy'. injection Hxy' as <- <-.
    apply process_entries_same_fs. rewrite Hab. exact Hbc.
  - destruct (IH1 c w1 w2 Hfs) as (c1 & w1' & w2' & Hl & Hl' & Hfs1).
    destruct (IH2 c w2 w2 eq_refl) as (c2 & w2'' & w3 & Hl'2 & Hl'' & Hfs2).
    rewrite Hl' in Hl'2. injection Hl'2 as <- <-.
    exists c1, w1', w3. split_and!; [exact Hl | exact Hl'' |].
    rewrite Hfs1. exact Hfs2.
Qed.

(** X15. The order of the traversal does not matter where each file is
    dealt with on its own: in a file system without links, on a host where
    what a stream accepts and what reaches the disk does not depend on the
    rest of the file system (no shared free space) and whether a stream
    opens depends on its path alone, and with a codec whose result depends
    on the image alone, two listings that are permutations of each other
    give the same counters and the same file system (the lines on the
    console come in another order). *)
Theorem traversal_order_does_not_matter (dt : string) (o : options)
    (es es' : list directory_entry) (c : counters) (w : world) :
  Permutation es es' →
  ∃ c' w1 w2,
    process_entries H dt o es c w = (Ret c', w1)
    ∧ process_entries H dt o es' c w = (Ret c', w2)
    ∧ fs w1 = fs w2.
Proof.
  intros Hperm. apply (process_entries_permutation dt o es es' Hperm).
  reflexivity.
Qed.

End Order.

(** *** The exit status and [std::cerr] *)

Lemma process_entries_reports (dt : string) (o : options) es :
  ∀ c w,
    (0 ≤ ok c ≤ total c)%Z →
    (total c + Z.of_nat (length es) ≤ SIZE_MAX)%Z →
    ∃ c' w' evs,
      process_entries H dt o es c w = (Ret c', w')
      ∧ trace w' = (trace w ++ evs)%list
      ∧ (0 ≤ ok c' ≤ total c')%Z
      ∧ (total c' - ok c')%Z = (total c - ok c + Z.of_nat (stderr_lines evs))%Z.
Proof.
  induction es as [| e rest IH]; intros c w Hok Hfit.
  { exists c, w, []. rewrite app_nil_r. cbn. split_and!; try reflexivity; lia. }
  rewrite process_entries_cons. cbn [length] in Hfit.
  destruct (candidate (format H) e) eqn:Hcand.
  - destruct (UpdateExifInPlace_events (path e) dt (dry_run o) (make_backup o) w)
      as (updated & w1 & evs1 & Hrun & Htrace1 & Hreport & _).
    rewrite (process_entry_candidate H dt o e c w updated w1 Hcand Hrun).
    assert (Ht : size_t_incr (total c) = (total c + 1)%Z)
      by (apply size_t_incr_small; lia).
    assert (Ho : size_t_incr (ok c) = (ok c + 1)%Z)
      by (apply size_t_incr_small; lia).
    destruct (IH (count_updated updated c) w1)
      as (c' & w' & evs2 & -> & Htrace2 & Hok' & Hdiff).
    { unfold count_updated. cbn [ok total]. rewrite Ht.
      destruct updated; rewrite ?Ho; lia. }
    { unfold count_updated. cbn [total]. rewrite Ht. lia. }
    exists c', w', (evs1 ++ evs2)%list.
    rewrite Htrace2, Htrace1, <- app_assoc, stderr_lines_app, Hreport.
    split; [reflexivity |]. split; [reflexivity |]. split; [exact Hok' |].
    rewrite Hdiff. unfold count_updated. cbn [ok total]. rewrite Ht.
    destruct updated; rewrite ?Ho; lia.
  - rewrite (process_entry_other H dt o e c w Hcand).
    destruct (IH (if skipped_by_type (format H) e then count_skipped c else c) w)
      as (c' & w' & evs & -> & Htrace & Hok' & Hdiff).
    { destruct (skipped_by_type (format H) e); exact Hok. }
    { destruct (skipped_by_type (format H) e); cbn [total count_skipped]; lia. }
    exists c', w', evs.
    split; [reflexivity |]. split; [exact Htrace |]. split; [exact Hok' |].
    rewrite Hdiff. destruct (skipped_by_type (format H) e); reflexivity.
Qed.

Lemma stderr_lines_zero (evs : list event) :
  stderr_lines evs = 0%nat ↔ Forall (λ e, is_stderr e = false) evs.
Proof.
  unfold stderr_lines. induction evs as [| e rest IH].
  - split; [constructor | reflexivity].
  - destruct (is_stderr e) eqn:He.
    + rewrite filter_cons_True by exact He. cbn [length].
      split; [discriminate |]. intros Hall. apply Forall_cons in Hall as [? _].
      congruence.
    + rewrite filter_cons_False by (rewrite He; discriminate).
      rewrite IH. split; [intros; constructor; assumption |].
      intros Hall. apply Forall_cons in Hall as [_ ?]. assumption.
Qed.

Lemma batch_traversal_length (folder dt : string) (o : options) w es fault
    (bound : Z) :
  (0 ≤ bound)%Z →
  (∀ slots, directory_iterator H (fs w) folder = Ret slots →
            (Z.of_nat (length slots) ≤ bound)%Z) →
  (∀ slots, recursive_directory_iterator H (fs w) folder = Ret slots →
            (Z.of_nat (length slots) ≤ bound)%Z) →
  batch_traversal H folder dt o w = (es, fault) →
  (Z.of_nat (length es) ≤ bound)%Z.
Proof.
  intros Hbound Hplain Hrec. unfold batch_traversal.
  destruct (recursive o).
  - destruct (recursive_directory_iterator H (fs w) folder) as [slots | x]
      eqn:Hiter.
    + intros Htr. apply traversal_length in Htr.
      specialize (Hrec slots eq_refl). lia.
    + intros [= <- _]. exact Hbound.
  - destruct (directory_iterator H (fs w) folder) as [slots | x] eqn:Hiter.
    + intros Htr. apply traversal_length in Htr.
      specialize (Hplain slots eq_refl). lia.
    + intros [= <- _]. exact Hbound.
Qed.

(** X16. The exit status agrees with the lines that the program writes to
    [std::cerr]: for directory streams that fit [std::size_t], [main]
    returns 0 exactly when it returns at all and has written no line to
    [std::cerr].  A run that an exception of the traversal ends does not
    return 0. *)
Theorem exit_status_zero_means_silent_stderr (argv : list string) (w : world) :
  (∀ slots, directory_iterator H (fs w) (nth 1 argv "") = Ret slots →
            (Z.of_nat (length slots) ≤ SIZE_MAX)%Z) →
  (∀ slots, recursive_directory_iterator H (fs w) (nth 1 argv "") = Ret slots →
            (Z.of_nat (length slots) ≤ SIZE_MAX)%Z) →
  ∃ r w' evs,
    main H argv w = (r, w')
    ∧ trace w' = (trace w ++ evs)%list
    ∧ (r = Ret 0%Z
       ↔ (∃ code, r = Ret code) ∧ Forall (λ e, is_stderr e = false) evs).
Proof.
  intros Hfit Hfit_rec.
  assert (Herror : ∀ line rest,
    main H argv w = (Ret 2%Z, World (fs w) (trace w ++ Stderr line :: rest)) →
    ∃ r w' evs,
      main H argv w = (r, w')
      ∧ trace w' = (trace w ++ evs)%list
      ∧ (r = Ret 0%Z
         ↔ (∃ code, r = Ret code) ∧ Forall (λ e, is_stderr e = false) evs)).
  { intros line rest Hmain. eexists _, _, _.
    split; [exact Hmain |]. split; [reflexivity |].
    split; [discriminate |]. intros [_ Hall].
    apply Forall_cons in Hall as [Hline _]. discriminate Hline. }
  destruct (Nat.lt_ge_cases (length argv) 3) as [Hfew | Hlen].
  { eapply Herror. exact (main_too_few H argv w Hfew). }
  destruct (parse_options (drop 3 argv) default_options) as [opt | o] eqn:Hparse.
  { eapply Herror. exact (main_unknown_option H argv opt w Hlen Hparse). }
  destruct (IsValidExifDateTime (nth 2 argv "")) eqn:Hdt.
  2: { destruct (main_invalid_datetime H argv o w Hlen Hparse Hdt)
         as [line Hmain].
       eapply Herror. exact Hmain. }
  destruct (negb (fs_exists_ec H (fs w) (nth 1 argv ""))
            || negb (fs_is_directory_ec H (fs w) (nth 1 argv "")))
    eqn:Hcheck.
  { assert (Hroot : ¬ root_is_directory H (fs w) (nth 1 argv "")).
    { intros Hroot. apply root_check in Hroot. rewrite Hroot in Hcheck.
      discriminate. }
    destruct (main_bad_root H argv o w Hlen Hparse Hdt Hroot) as [line Hmain].
    eapply Herror. exact Hmain. }
  apply root_check in Hcheck.
  destruct (batch_traversal H (nth 1 argv "") (nth 2 argv "") o w)
    as [es fault] eqn:Htr.
  assert (Hlength : (Z.of_nat (length es) ≤ SIZE_MAX)%Z).
  { apply (batch_traversal_length (nth 1 argv "") (nth 2 argv "") o w es fault
             SIZE_MAX);
      [unfold SIZE_MAX; lia | assumption ..]. }
  destruct (run_batch_traversal H _ _ o w es fault Htr)
    as (c & w1 & Hlist & Hrun).
  destruct (process_entries_reports (nth 2 argv "") o es (Counters 0 0 0) w)
    as (c2 & w2 & evs & Hloop & Htrace & Hok & Hdiff).
  { cbn. lia. }
  { cbn [total]. lia. }
  rewrite Hlist in Hloop. injection Hloop as <- <-.
  destruct fault as [x |].
  - rewrite (main_aborts H argv o w x w1 Hlen Hparse Hdt Hcheck Hrun).
    exists (Throw x), w1, evs. split; [reflexivity |].
    split; [exact Htrace |].
    split; [discriminate | intros [[code Hcode] _]; discriminate Hcode].
  - rewrite (main_runs H argv o w c w1 Hlen Hparse Hdt Hcheck Hrun).
    exists (Ret (exit_status c)),
      (World (fs w1) (trace w1 ++ [Stdout (summary_line c)])),
      (evs ++ [Stdout (summary_line c)])%list.
    split; [reflexivity |]. cbn [trace]. rewrite Htrace, <- app_assoc.
    split; [reflexivity |].
    rewrite <- stderr_lines_zero, stderr_lines_app.
    change (stderr_lines [Stdout (summary_line c)]) with 0%nat.
    cbn [total ok] in Hdiff. unfold exit_status.
    destruct (Z.eqb_spec (ok c) (total c)); split.
    + intros _. split; [eauto | lia].
    + reflexivity.
    + intros [= E].
    + intros [_ Hquiet]. lia.
Qed.

End More.

(* ===================================================================== *)
(** ** The further properties on the concrete directory *)
(* ===================================================================== *)

(** X2 on two spellings of [photos/b.JPEG]. *)
Lemma type_filter_ignores_letter_case_witness :
  ToLower "photos/b.JPEG" = ToLower "PHOTOS/B.jpeg"
  ∧ IsJpegPath posix "photos/b.JPEG" = IsJpegPath posix "PHOTOS/B.jpeg".
Proof.
  assert (Hsame : ToLower "photos/b.JPEG" = ToLower "PHOTOS/B.jpeg")
    by reflexivity.
  split; [exact Hsame |].
  exact (type_filter_ignores_letter_case posix "photos/b.JPEG" "PHOTOS/B.jpeg"
           Hsame).
Defined.

(** X3 on [a.jpg] in two directories. *)
Lemma type_filter_looks_at_the_filename_witness :
  has_separator posix "a.jpg" = false
  ∧ IsJpegPath posix ("photos" +:+ "/" +:+ "a.jpg")
    = IsJpegPath posix ("photos/sub" +:+ "/" +:+ "a.jpg").
Proof.
  assert (Hname : has_separator posix "a.jpg" = false) by reflexivity.
  split; [exact Hname |].
  exact (proj1 (type_filter_looks_at_the_filename posix "photos" "photos/sub"
                  "a.jpg" Hname)).
Defined.

(** X5 on the copy of [photos/a.jpg] to its backup path. *)
Lemma CopyFileBinary_contract_witness :
  "photos/a.jpg" ≠ "photos/a.jpg.bak"
  ∧ ∃ copied cause w',
      CopyFileBinary quiet_host "photos/a.jpg" "photos/a.jpg.bak" "none"
        (World photos_fs [])
      = (Ret (copied, cause), w')
      ∧ fs w' !! "photos/a.jpg" = photos_fs !! "photos/a.jpg".
Proof.
  assert (Hapart : "photos/a.jpg" ≠ "photos/a.jpg.bak") by discriminate.
  split; [exact Hapart |].
  destruct (CopyFileBinary_contract quiet_host "photos/a.jpg"
              "photos/a.jpg.bak" "none" (World photos_fs []) Hapart)
    as (copied & cause & w' & Hrun & Hsrc & _).
  exists copied, cause, w'. split; [exact Hrun | exact Hsrc].
Defined.

(** X6 on the empty file [photos/notes.txt]. *)
Lemma empty_file_cannot_be_backed_up_witness :
  photos_fs !! "photos/notes.txt" = Some (File [])
  ∧ @UpdateExifInPlace quiet_host stamping_codec "photos/notes.txt"
      "2026:02:25 18:30:00" false true (World photos_fs [])
    = (Ret false,
       World (<[backup_path_of "photos/notes.txt" := File []]> photos_fs)
             [FsExists (backup_path_of "photos/notes.txt");
              OpenIn "photos/notes.txt";
              OpenOut (backup_path_of "photos/notes.txt");
              Stderr (backup_failed_line "photos/notes.txt"
                        "failed while writing backup")]).
Proof.
  assert (Hempty : photos_fs !! "photos/notes.txt" = Some (File []))
    by (vm_compute; reflexivity).
  split; [exact Hempty |].
  refine (@empty_file_cannot_be_backed_up quiet_host stamping_codec
            "photos/notes.txt" "2026:02:25 18:30:00" (World photos_fs [])
            _ _ Hempty _ _); vm_compute; reflexivity.
Defined.

(** X7 on [photos/a.jpg] on the host that cannot query any status. *)
Lemma unknown_backup_status_fails_the_file_witness :
  status_fault locked_host (backup_path_of "photos/a.jpg")
  = Some "Permission denied"
  ∧ @UpdateExifInPlace locked_host stamping_codec "photos/a.jpg"
      "2026:02:25 18:30:00" false true (World photos_fs [])
    = (Ret false,
       World photos_fs
             [FsExists (backup_path_of "photos/a.jpg");
              Stderr (caught_line "photos/a.jpg"
                        (std_exception "Permission denied"))]).
Proof.
  assert (Hfault : status_fault locked_host (backup_path_of "photos/a.jpg")
                   = Some "Permission denied") by reflexivity.
  split; [exact Hfault |].
  exact (@unknown_backup_status_fails_the_file locked_host stamping_codec
           "photos/a.jpg" "2026:02:25 18:30:00" "Permission denied"
           (World photos_fs []) Hfault).
Defined.

(** X8 on [photos/a.jpg] with the codec that returns a null handle. *)
Lemma null_image_handle_fails_the_file_witness :
  @ImageFactory_open null_codec "photos/a.jpg" (photos_fs !! "photos/a.jpg")
  = Ret false
  ∧ @UpdateExifInPlace quiet_host null_codec "photos/a.jpg"
      "2026:02:25 18:30:00" false false (World photos_fs [])
    = (Ret false,
       World photos_fs
             [ImageOpen "photos/a.jpg";
              Stderr (open_failed_line "photos/a.jpg")]).
Proof.
  assert (Hnull : @ImageFactory_open null_codec "photos/a.jpg"
                    (photos_fs !! "photos/a.jpg") = Ret false)
    by reflexivity.
  split; [exact Hnull |].
  exact (@null_image_handle_fails_the_file quiet_host null_codec
           "photos/a.jpg" "2026:02:25 18:30:00" (World photos_fs []) Hnull).
Defined.

(** X9 on [photos/a.jpg] with the codec that puts one byte in front. *)
Lemma successful_update_stamps_three_tags_witness :
  @UpdateExifInPlace quiet_host stamping_codec "photos/a.jpg"
    "2026:02:25 18:30:00" false false (World photos_fs [])
  = (Ret true,
     World (<["photos/a.jpg" := File [xff; x0a; x01]%byte]> photos_fs)
           [ImageOpen "photos/a.jpg"; ReadMetadata "photos/a.jpg";
            WriteMetadata "photos/a.jpg"; Stdout (ok_line "photos/a.jpg")])
  ∧ stamped "2026:02:25 18:30:00" ∅ !! "Exif.Image.DateTime"
    = Some "2026:02:25 18:30:00"
  ∧ stamped "2026:02:25 18:30:00" ∅ !! "Exif.Image.Make" = None.
Proof.
  destruct (@successful_update_stamps_three_tags quiet_host stamping_codec
              "photos/a.jpg" "2026:02:25 18:30:00" (World photos_fs []) ∅
              (Some [xff; x0a; x01]%byte))
    as [Hrun Htags]; [vm_compute; reflexivity .. |].
  split; [exact Hrun |].
  split; [exact (Htags "Exif.Image.DateTime") | exact (Htags "Exif.Image.Make")].
Defined.

(** X10 on the update of [photos/a.jpg] with the backup step on. *)
Lemma codec_runs_only_behind_a_backup_witness :
  let run :=
    @UpdateExifInPlace quiet_host stamping_codec "photos/a.jpg"
      "2026:02:25 18:30:00" false true (World photos_fs []) in
  run = (Ret true, run.2)
  ∧ image_opens (trace run.2) ≠ []
  ∧ ∃ data,
      photos_fs !! "photos/a.jpg" = Some (File data)
      ∧ data ≠ []
      ∧ fs run.2 !! backup_path_of "photos/a.jpg"
        = Some (File (take (backup_kept quiet_host "photos/a.jpg" photos_fs)
                        data)).
Proof.
  intros run.
  assert (Hrun : run = (Ret true, run.2)) by (vm_compute; reflexivity).
  assert (Hopened : image_opens (trace run.2) ≠ [])
    by (vm_compute; discriminate).
  split; [exact Hrun |]. split; [exact Hopened |].
  destruct (@codec_runs_only_behind_a_backup quiet_host stamping_codec
              "photos/a.jpg" "2026:02:25 18:30:00" (World photos_fs [])
              true run.2 (trace run.2) Hrun eq_refl Hopened)
    as (data & rest & Hsrc & Hdata & _ & Hbackup & _).
  exists data. split; [exact Hsrc |]. split; [exact Hdata | exact Hbackup].
Defined.

(** X12 on [photos/a.jpg], updated once and then run again. *)
Lemma a_changed_file_is_refused_next_time_witness :
  let run :=
    @UpdateExifInPlace quiet_host stamping_codec "photos/a.jpg"
      "2026:02:25 18:30:00" false true (World photos_fs []) in
  run = (Ret true, run.2)
  ∧ ∃ line : string,
      @UpdateExifInPlace quiet_host stamping_codec "photos/a.jpg"
        "2027:01:01 00:00:00" false true run.2
      = (Ret false,
         World (fs run.2)
               (trace run.2 ++ [FsExists (backup_path_of "photos/a.jpg");
                                Stderr line])).
Proof.
  intros run.
  assert (Hrun : run = (Ret true, run.2)) by (vm_compute; reflexivity).
  split; [exact Hrun |].
  exact (proj2 (@a_changed_file_is_refused_next_time quiet_host stamping_codec
                  "photos/a.jpg" "2026:02:25 18:30:00" "2027:01:01 00:00:00"
                  (World photos_fs []) true run.2 Hrun (or_introl eq_refl))).
Defined.

(** X13 on the listing of [photos]: three regular files. *)
Lemma every_regular_file_is_counted_once_witness :
  (Z.of_nat (length photos_listing) ≤ SIZE_MAX)%Z
  ∧ ∃ c w',
      @process_entries quiet_host stamping_codec "2026:02:25 18:30:00"
        default_options photos_listing (Counters 0 0 0) (World photos_fs [])
      = (Ret c, w')
      ∧ (total c + skipped c)%Z = 3%Z.
Proof.
  assert (Hfit : (Z.of_nat (length photos_listing) ≤ SIZE_MAX)%Z)
    by (vm_compute; discriminate).
  split; [exact Hfit |].
  destruct (@every_regular_file_is_counted_once quiet_host stamping_codec
              "2026:02:25 18:30:00" default_options photos_listing
              (World photos_fs []) Hfit)
    as (c & w' & Hrun & Hcount & _).
  exists c, w'. split; [exact Hrun | exact Hcount].
Defined.

(** X15 on the listing of [photos] and the same listing backwards, on the
    host where every byte reaches the disk. *)
Lemma traversal_order_does_not_matter_witness :
  (∀ (m m' : gmap string node) (p : string) (n : nat),
     stream_accepts quiet_host m p n = stream_accepts quiet_host m' p n)
  ∧ (∀ (m m' : gmap string node) (p : string) (n : nat),
       disk_keeps quiet_host m p n = disk_keeps quiet_host m' p n)
  ∧ Permutation photos_listing (rev photos_listing)
  ∧ ∃ c w1 w2,
      @process_entries quiet_host stamping_codec "2026:02:25 18:30:00"
        default_options photos_listing (Counters 0 0 0) (World photos_fs [])
      = (Ret c, w1)
      ∧ @process_entries quiet_host stamping_codec "2026:02:25 18:30:00"
          default_options (rev photos_listing) (Counters 0 0 0)
          (World photos_fs [])
        = (Ret c, w2)
      ∧ fs w1 = fs w2.
Proof.
  assert (Haccepts : ∀ (m m' : gmap string node) (p : string) (n : nat),
            stream_accepts quiet_host m p n = stream_accepts quiet_host m' p n)
    by reflexivity.
  assert (Hkeeps : ∀ (m m' : gmap string node) (p : string) (n : nat),
            disk_keeps quiet_host m p n = disk_keeps quiet_host m' p n)
    by reflexivity.
  assert (Hperm : Permutation photos_listing (rev photos_listing))
    by apply Permutation_rev.
  split; [exact Haccepts |]. split; [exact Hkeeps |]. split; [exact Hperm |].
  exact (@traversal_order_does_not_matter quiet_host stamping_codec
           Haccepts Hkeeps "2026:02:25 18:30:00" default_options
           photos_listing (rev photos_listing) (Counters 0 0 0)
           (World photos_fs []) Hperm).
Defined.

(** X16 on a run over [photos] without flags. *)
Lemma exit_status_zero_means_silent_stderr_witness :
  (∀ slots, directory_iterator quiet_host photos_fs "photos" = Ret slots →
            (Z.of_nat (length slots) ≤ SIZE_MAX)%Z)
  ∧ ∃ r w' evs,
      @main quiet_host stamping_codec
        ["exif_batch_set"; "photos"; "2026:02:25 18:30:00"]
        (World photos_fs [])
      = (r, w')
      ∧ trace w' = evs
      ∧ (r = Ret 0%Z
         ↔ (∃ code, r = Ret code) ∧ Forall (λ e, is_stderr e = false) evs).
Proof.
  assert (Hfit : ∀ slots,
            directory_iterator quiet_host photos_fs "photos" = Ret slots →
            (Z.of_nat (length slots) ≤ SIZE_MAX)%Z)
    by (intros slots [= <-]; vm_compute; discriminate).
  split; [exact Hfit |].
  exact (@exit_status_zero_means_silent_stderr quiet_host stamping_codec
           ["exif_batch_set"; "photos"; "2026:02:25 18:30:00"]
           (World photos_fs []) Hfit Hfit).
Defined.
